(** * native-lib.cpp: the JNI entry points of com.safeai.webrtcapp.MainActivity

    A shallow embedding of [app/src/main/cpp/native-lib.cpp] and the
    properties of its five entry points.

    The definitions come first.
    - [Jint]: the 32-bit [jint] arithmetic the C++ operators perform.
    - [Jni]: the part of the Java VM the code talks to through [JNIEnv]:
      a managed heap of arrays, strings and [Person] objects, the native
      buffers handed out by [Get...Elements] / [Get...Chars], modified
      UTF-8, and the handful of [JNIEnv] functions the file calls.
    - [Cxx]: the standard library calls of the file.
    - [NativeLib]: the five functions of the source, statement by
      statement, in the [JNI] state-and-failure monad.
    - [Spec]: the vocabulary the statements are written in.

    Then the lemmas, one module for each layer, and at the end the ten
    properties of the entry points. *)

From stdpp Require Import base option list gmap strings.
From Stdlib Require Import ZArith Lia.

Local Open Scope Z_scope.

(** ** 32-bit integers *)

Module Jint.

Definition modulus : Z := 4294967296.
Definition half_modulus : Z := 2147483648.
Definition min_jint : Z := -2147483648.
Definition max_jint : Z := 2147483647.

(** [in_range z]: z is a value of type [jint] (a Java [int]). *)
Definition in_range (z : Z) : Prop := min_jint <= z <= max_jint.

(** The 32-bit two's complement representative of an integer: what is
    left of a result once it is stored in a [jint], and what
    [static_cast<int>] keeps of a wider value. *)
Definition wrap (z : Z) : Z := (z + half_modulus) mod modulus - half_modulus.

(** [a + b] and [a - b] on [jint] operands, as two's complement hardware
    computes them: the exact result, kept in 32 bits. *)
Definition add (a b : Z) : Z := wrap (a + b).
Definition sub (a b : Z) : Z := wrap (a - b).

End Jint.

(** ** The JNI environment *)

Module Jni.

(** A [jobject] (and [jstring], [jintArray]) is a reference into the managed
    heap, or NULL. *)
Definition jobject : Type := option nat.

(** The [jclass] values the code can meet. *)
Inductive jclass : Type :=
| IntArrayClass
| StringClass
| PersonClass.

(** Objects of the managed heap. A Java string is its sequence of UTF-16
    code units; an [int[]] is its sequence of elements. *)
Inductive object : Type :=
| IntArray (elems : list Z)
| JavaString (chars : list Z)
| PersonObject (name : jobject) (age : Z).

(** The state of the VM as seen through [JNIEnv]: the managed heap, the
    native buffers currently lent to native code, and whether this VM
    hands out copies of primitive arrays (true) or pins the array and
    hands out its own storage (false); JNI allows both. *)
Record jvm : Type := JVM {
  heap : gmap nat object;
  native : gmap nat (list Z);
  copying : bool
}.

Definition set_heap (h : gmap nat object) (st : jvm) : jvm :=
  JVM h (native st) (copying st).
Definition set_native (n : gmap nat (list Z)) (st : jvm) : jvm :=
  JVM (heap st) n (copying st).

(** Native code run against the VM: it reads and updates the state, and
    [None] stands for every outcome JNI leaves undefined or fatal (a NULL
    or ill-typed reference, a released buffer, a NULL field id). *)
Definition JNI (A : Type) : Type := jvm → option (A * jvm).

#[global] Instance JNI_ret : MRet JNI := λ A a st, Some (a, st).
#[global] Instance JNI_bind : MBind JNI := λ A B f m st,
  match m st with
  | Some (a, st') => f a st'
  | None => None
  end.

Definition fail {A} : JNI A := λ _, None.
Definition get : JNI jvm := λ st, Some (st, st).
Definition put (st : jvm) : JNI unit := λ _, Some (tt, st).
Definition lift {A} (o : option A) : JNI A :=
  match o with Some a => mret a | None => fail end.

(** The object a reference points to. *)
Definition deref (r : jobject) : JNI object :=
  st ← get; lift (k ← r; heap st !! k).

(** Allocation in the managed heap and in native memory. *)
Definition new_object (o : object) : JNI jobject :=
  st ← get;
  let k := fresh (dom (heap st)) in
  _ ← put (set_heap (<[k := o]> (heap st)) st);
  mret (Some k).

Definition new_buffer (b : list Z) : JNI nat :=
  st ← get;
  let k := fresh (dom (native st)) in
  _ ← put (set_native (<[k := b]> (native st)) st);
  mret k.

Definition read_buffer (k : nat) : JNI (list Z) :=
  st ← get; lift (native st !! k).

Definition free_buffer (k : nat) : JNI unit :=
  st ← get;
  match native st !! k with
  | Some _ => put (set_native (delete k (native st)) st)
  | None => fail
  end.

(** *** Primitive arrays *)

(** The [jint*] returned by [GetIntArrayElements]: the array's own pinned
    storage, or a native copy. *)
Inductive elements_ptr : Type :=
| Pinned (array : nat)
| Copied (buffer : nat).

(** The release modes of [Release<Type>ArrayElements]. *)
Inductive release_mode : Type :=
| JNI_DEFAULT   (* 0: copy back and free the buffer *)
| JNI_COMMIT    (* copy back, keep the buffer *)
| JNI_ABORT.    (* free the buffer, do not copy back *)

Definition GetIntArrayElements (array : jobject) : JNI elements_ptr :=
  o ← deref array;
  match array, o with
  | Some a, IntArray l =>
      st ← get;
      if copying st then b ← new_buffer l; mret (Copied b)
      else mret (Pinned a)
  | _, _ => fail
  end.

(** The length is a [jsize]: a Java array has at most 2^31-1 elements. *)
Definition GetArrayLength (array : jobject) : JNI Z :=
  o ← deref array;
  match o with
  | IntArray l => mret (Z.of_nat (length l))
  | _ => fail
  end.

(** [elements[i]] *)
Definition load (elements : elements_ptr) (i : Z) : JNI Z :=
  l ← match elements with
      | Pinned a =>
          o ← deref (Some a);
          match o with IntArray l => mret l | _ => fail end
      | Copied b => read_buffer b
      end;
  if i <? 0 then fail else lift (l !! Z.to_nat i).

(** [points_to st p l]: the elements behind [p] are [l]. *)
Definition points_to (st : jvm) (p : elements_ptr) (l : list Z) : Prop :=
  match p with
  | Pinned a => heap st !! a = Some (IntArray l)
  | Copied b => native st !! b = Some l
  end.

Definition ReleaseIntArrayElements
    (array : jobject) (elements : elements_ptr) (mode : release_mode) : JNI unit :=
  o ← deref array;
  match array, o, elements with
  | Some a, IntArray _, Pinned a' =>
      if decide (a = a') then mret tt else fail
  | Some a, IntArray _, Copied b =>
      l ← read_buffer b;
      _ ← match mode with
          | JNI_ABORT => mret tt
          | JNI_DEFAULT | JNI_COMMIT =>
              st ← get; put (set_heap (<[a := IntArray l]> (heap st)) st)
          end;
      match mode with
      | JNI_COMMIT => mret tt
      | JNI_DEFAULT | JNI_ABORT => free_buffer b
      end
  | _, _, _ => fail
  end.

(** *** Strings: modified UTF-8 *)

(** The modified UTF-8 encoding of one UTF-16 code unit, as
    [GetStringUTFChars] produces it: one byte for U+0001..U+007F, two bytes
    for U+0000 and U+0080..U+07FF, three bytes above. A character outside
    the basic plane is two code units in the string, each encoded on its
    own. *)
Definition encode_unit (c : Z) : list Z :=
  if (1 <=? c) && (c <=? 127) then [c]
  else if c <=? 2047 then
    [Z.lor 192 (Z.shiftr c 6); Z.lor 128 (Z.land c 63)]
  else
    [Z.lor 224 (Z.shiftr c 12);
     Z.lor 128 (Z.land (Z.shiftr c 6) 63);
     Z.lor 128 (Z.land c 63)].

Definition encode (s : list Z) : list Z := s ≫= encode_unit.

Definition is_continuation (b : Z) : bool := Z.land b 192 =? 128.

(** The decoding [NewStringUTF] performs. Byte sequences that are not
    modified UTF-8 have no defined result. *)
Fixpoint decode (bs : list Z) : option (list Z) :=
  match bs with
  | [] => Some []
  | b :: bs1 =>
      if (1 <=? b) && (b <=? 127) then
        s ← decode bs1; Some (b :: s)
      else if Z.land b 224 =? 192 then
        match bs1 with
        | c1 :: bs2 =>
            if is_continuation c1 then
              s ← decode bs2;
              Some (Z.lor (Z.shiftl (Z.land b 31) 6) (Z.land c1 63) :: s)
            else None
        | [] => None
        end
      else if Z.land b 240 =? 224 then
        match bs1 with
        | c1 :: c2 :: bs3 =>
            if is_continuation c1 && is_continuation c2 then
              s ← decode bs3;
              Some (Z.lor (Z.shiftl (Z.land b 15) 12)
                      (Z.lor (Z.shiftl (Z.land c1 63) 6) (Z.land c2 63)) :: s)
            else None
        | _ => None
        end
      else None
  end.

(** The bytes of a NUL-terminated C string: everything before the first
    zero byte. *)
Fixpoint c_string (buf : list Z) : list Z :=
  match buf with
  | [] => []
  | b :: buf' => if b =? 0 then [] else b :: c_string buf'
  end.

(** [GetStringUTFChars(s, nullptr)]: a fresh NUL-terminated native buffer
    holding the modified UTF-8 encoding of the string. *)
Definition GetStringUTFChars (s : jobject) : JNI nat :=
  o ← deref s;
  match o with
  | JavaString chars => new_buffer (encode chars ++ [0])
  | _ => fail
  end.

Definition ReleaseStringUTFChars (s : jobject) (chars : nat) : JNI unit :=
  o ← deref s;
  match o with
  | JavaString _ => free_buffer chars
  | _ => fail
  end.

(** [NewStringUTF(bytes)]: a new [java.lang.String] decoded from a
    NUL-terminated modified UTF-8 string. *)
Definition NewStringUTF (bytes : list Z) : JNI jobject :=
  s ← lift (decode (c_string bytes));
  new_object (JavaString s).

(** *** Classes, fields and constructors *)

Definition GetObjectClass (obj : jobject) : JNI jclass :=
  o ← deref obj;
  mret match o with
       | IntArray _ => IntArrayClass
       | JavaString _ => StringClass
       | PersonObject _ _ => PersonClass
       end.

(** Modelled from the spec: the managed-side [Person] class is not part of
    the native sources. The spec gives it as the two-field record
    [{name: TextValue, age: ScalarValue}], that is a [String] field [name]
    and an [int] field [age], with the constructor [(String, int)] the
    native code looks up, which stores its two arguments. *)
Definition declared_fields (c : jclass) : list (string * string) :=
  match c with
  | PersonClass => [("name", "Ljava/lang/String;"); ("age", "I")]
  | _ => []
  end%string.

(** Modelled from the spec: the one constructor of [Person] the native code
    looks up, with signature [(String, int)]. *)
Definition declared_constructors (c : jclass) : list string :=
  match c with
  | PersonClass => ["(Ljava/lang/String;I)V"]
  | _ => []
  end%string.

(** A [jfieldID] / [jmethodID]: NULL when the lookup failed. *)
Definition jfieldID : Type := option (jclass * string).
Definition jmethodID : Type := option (jclass * string).

Definition GetFieldID (c : jclass) (name sig : string) : JNI jfieldID :=
  mret (if decide ((name, sig) ∈ declared_fields c) then Some (c, name) else None).

Definition GetMethodID (c : jclass) (name sig : string) : JNI jmethodID :=
  mret (if decide (name = "<init>"%string ∧ sig ∈ declared_constructors c)
        then Some (c, sig) else None).

Definition GetObjectField (obj : jobject) (f : jfieldID) : JNI jobject :=
  o ← deref obj;
  match o, f with
  | PersonObject name _, Some (PersonClass, "name"%string) => mret name
  | _, _ => fail
  end.

Definition GetIntField (obj : jobject) (f : jfieldID) : JNI Z :=
  o ← deref obj;
  match o, f with
  | PersonObject _ age, Some (PersonClass, "age"%string) => mret age
  | _, _ => fail
  end.

(** The arguments of a constructor call. *)
Inductive jvalue : Type :=
| JObjectValue (l : jobject)
| JIntValue (i : Z).

(** Modelled from the spec: the [Person] constructor is not part of the
    native sources; a new record is built from a name and an age, so the
    constructor stores its two arguments in the two fields. *)
Definition NewObject (c : jclass) (ctor : jmethodID) (args : list jvalue) : JNI jobject :=
  match c, ctor, args with
  | PersonClass, Some (PersonClass, "(Ljava/lang/String;I)V"%string),
    [JObjectValue name; JIntValue age] => new_object (PersonObject name age)
  | _, _, _ => fail
  end.

End Jni.

(** ** The C++ side: [std::string], [std::reverse], [std::to_string], [for] *)

Module Cxx.
Import Jni.

(** A [std::string] is its sequence of bytes. *)
Abbreviation std_string := (list Z).

(** [std::string s(p)] for a [const char *p] into a native buffer: the
    bytes up to the terminating NUL. *)
Definition string_of_chars (p : nat) : JNI std_string :=
  buf ← read_buffer p; mret (c_string buf).

(** [s.c_str()] *)
Definition c_str (s : std_string) : list Z := s ++ [0].

(** [std::iter_swap] on positions [i] and [j]. *)
Definition iter_swap (i j : nat) (s : std_string) : std_string :=
  match s !! i, s !! j with
  | Some x, Some y => <[j := x]> (<[i := y]> s)
  | _, _ => s
  end.

(** [std::reverse(first, last)] on random access iterators:
    [if (first != last) for (; first < --last; ++first) iter_swap(first, last);]
    with the iterators as positions; [n] bounds the number of rounds. *)
Fixpoint reverse_loop (n first last : nat) (s : std_string) : std_string :=
  match n with
  | O => s
  | S n' =>
      let last' := Nat.pred last in
      if (first <? last')%nat
      then reverse_loop n' (S first) last' (iter_swap first last' s)
      else s
  end.

Definition std_reverse (s : std_string) : std_string :=
  if (length s =? 0)%nat then s else reverse_loop (length s) 0 (length s) s.

(** [std::to_string(int)]: the digits are produced from the least
    significant one, in front of those already there; a value of [n] bits
    has at most [n] digits. *)
Fixpoint digits (n : nat) (v : Z) (acc : std_string) : std_string :=
  match n with
  | O => acc
  | S n' =>
      let acc' := (48 + v mod 10) :: acc in
      if v / 10 =? 0 then acc' else digits n' (v / 10) acc'
  end.

Definition to_string (v : Z) : std_string :=
  if v <? 0 then 45 :: digits (S (Z.to_nat (Z.log2 (- v)))) (- v) []
  else digits (S (Z.to_nat (Z.log2 v))) v [].

(** [for (int i = i0; i < i0 + n; i++) a = body(i, a);] as [n] rounds. The
    counter stays below the bound, itself an [int], so [i++] does not
    wrap. *)
Fixpoint for_loop {A} (n : nat) (i : Z) (body : Z → A → JNI A) (a : A) : JNI A :=
  match n with
  | O => mret a
  | S n' => a' ← body i a; for_loop n' (i + 1) body a'
  end.

End Cxx.

(** ** native-lib.cpp *)

Module NativeLib.
Import Jint Jni Cxx.

(** [struct Person { std::string name; int age; };] *)
Record Person : Type := { name : std_string; age : Z }.

(** In every entry point [env] is the state the [JNI] monad threads and
    [thiz] is the [MainActivity] the method was called on. *)

Definition Java_com_safeai_webrtcapp_MainActivity_calculateSum
    (thiz : jobject) (a b : Z) : JNI Z :=
  mret (add a b).

Definition Java_com_safeai_webrtcapp_MainActivity_calculateDifference
    (thiz : jobject) (a b : Z) : JNI Z :=
  mret (sub a b).

Definition Java_com_safeai_webrtcapp_MainActivity_CalculateArrySum
    (thiz : jobject) (array : jobject) : JNI Z :=
  elements ← GetIntArrayElements array;
  length ← GetArrayLength array;
  sum ← for_loop (Z.to_nat length) 0
          (λ i sum, e ← load elements i; mret (add sum e)) 0;
  _ ← ReleaseIntArrayElements array elements JNI_ABORT;
  mret sum.

Definition Java_com_safeai_webrtcapp_MainActivity_ReversesString
    (thiz : jobject) (input : jobject) : JNI jobject :=
  inputChars ← GetStringUTFChars input;
  inputStr ← string_of_chars inputChars;
  let inputStr := std_reverse inputStr in
  _ ← ReleaseStringUTFChars input inputChars;
  NewStringUTF (c_str inputStr).

Definition Java_com_safeai_webrtcapp_MainActivity_swapPersonAttributes
    (thiz : jobject) (person : jobject) : JNI jobject :=
  personClass ← GetObjectClass person;
  nameField ← GetFieldID personClass "name" "Ljava/lang/String;";
  ageField ← GetFieldID personClass "age" "I";
  nameJString ← GetObjectField person nameField;
  nameChars ← GetStringUTFChars nameJString;
  name ← string_of_chars nameChars;
  _ ← ReleaseStringUTFChars nameJString nameChars;
  age ← GetIntField person ageField;
  let swappedPerson :=
    {| name := to_string age; age := wrap (Z.of_nat (length name)) |} in
  constructor ← GetMethodID personClass "<init>" "(Ljava/lang/String;I)V";
  swappedNameJString ← NewStringUTF (c_str (NativeLib.name swappedPerson));
  swappedPersonObject ←
    NewObject personClass constructor
      [JObjectValue swappedNameJString; JIntValue (NativeLib.age swappedPerson)];
  mret swappedPersonObject.

(** The operations under the names the interface table gives them. *)
Abbreviation sum := Java_com_safeai_webrtcapp_MainActivity_calculateSum.
Abbreviation difference := Java_com_safeai_webrtcapp_MainActivity_calculateDifference.
Abbreviation arraySum := Java_com_safeai_webrtcapp_MainActivity_CalculateArrySum.
Abbreviation reverseString := Java_com_safeai_webrtcapp_MainActivity_ReversesString.
Abbreviation swapAttributes := Java_com_safeai_webrtcapp_MainActivity_swapPersonAttributes.

(** *** Reading results back *)

(** What a caller sees of a returned [jint], string or [Person]: the value,
    not the reference. *)
Definition returned_int (r : option (Z * jvm)) : option Z := fst <$> r.

Definition string_at (st : jvm) (r : jobject) : option (list Z) :=
  k ← r; o ← heap st !! k;
  match o with JavaString s => Some s | _ => None end.

(** A [PersonRecord] of the spec: a name and an age. *)
Record PersonRecord : Type := { pname : list Z; page : Z }.

Definition person_at (st : jvm) (r : jobject) : option PersonRecord :=
  k ← r; o ← heap st !! k;
  match o with
  | PersonObject n a => s ← string_at st n; Some {| pname := s; page := a |}
  | _ => None
  end.

Definition returned_string (r : option (jobject * jvm)) : option (list Z) :=
  '(x, st) ← r; string_at st x.

Definition returned_person (r : option (jobject * jvm)) : option PersonRecord :=
  '(x, st) ← r; person_at st x.

(** The code units of an ASCII literal. *)
Definition chars (s : string) : list Z :=
  (λ a, Z.of_N (Ascii.N_of_ascii a)) <$> String.list_ascii_of_string s.

(** A VM holding exactly the given objects at references 0, 1, ... *)
Definition vm_of (objs : list object) (copies : bool) : jvm :=
  JVM (map_seq 0 objs) ∅ copies.

End NativeLib.

(** ** The vocabulary of the statements *)

Module Spec.
Import Jint Jni Cxx.

(** The sum of a sequence as an integer, without any width. *)
Definition total (S : list Z) : Z := foldr Z.add 0 S.

(** The sum of a sequence in [jint] arithmetic from a zero accumulator. *)
Definition wrapping_total (S : list Z) : Z := fold_left add S 0.

(** Reading a decimal numeral, the way the spec's "decimal string
    representation" is understood: an optional minus sign, then digits,
    most significant first, with no leading zero, no empty numeral and
    no negative zero. *)
Definition is_digit (c : Z) : bool := (48 <=? c) && (c <=? 57).

Fixpoint digits_value (acc : Z) (s : list Z) : option Z :=
  match s with
  | [] => Some acc
  | c :: s' => if is_digit c then digits_value (10 * acc + (c - 48)) s' else None
  end.

Definition unsigned_value (s : list Z) : option Z :=
  match s with
  | [] => None
  | [c] => digits_value 0 [c]
  | c :: _ => if c =? 48 then None else digits_value 0 s
  end.

Definition decimal_value (s : list Z) : option Z :=
  match s with
  | [] => None
  | c :: s' =>
      if c =? 45 then
        match unsigned_value s' with
        | Some v => if v =? 0 then None else Some (- v)
        | None => None
        end
      else unsigned_value s
  end.

(** [is_decimal_of s v]: [s] is the decimal string representation of [v]. *)
Definition is_decimal_of (s : list Z) (v : Z) : Prop := decimal_value s = Some v.

(** The characters modified UTF-8 encodes in one byte: U+0001..U+007F. *)
Definition one_byte (c : Z) : Prop := 1 <= c <= 127.

#[global] Instance one_byte_dec c : Decision (one_byte c) :=
  and_dec (Z.le_dec 1 c) (Z.le_dec c 127).

(** [well_encoded c]: the encoding of the code unit [c] has the form the
    decoder accepts, and carries the bits of [c]. *)
Definition well_encoded (c : Z) : bool :=
  match encode_unit c with
  | [b] => (1 <=? b) && (b <=? 127) && (b =? c)
  | [b; c1] =>
      negb ((1 <=? b) && (b <=? 127)) && (Z.land b 224 =? 192) &&
      is_continuation c1 &&
      (Z.lor (Z.shiftl (Z.land b 31) 6) (Z.land c1 63) =? c)
  | [b; c1; c2] =>
      negb ((1 <=? b) && (b <=? 127)) && negb (Z.land b 224 =? 192) &&
      (Z.land b 240 =? 224) && is_continuation c1 && is_continuation c2 &&
      (Z.lor (Z.shiftl (Z.land b 15) 12)
         (Z.lor (Z.shiftl (Z.land c1 63) 6) (Z.land c2 63)) =? c)
  | _ => false
  end.

(** [all_well_encoded n lo]: so are the 2^n code units from [lo] on. *)
Fixpoint all_well_encoded (n : nat) (lo : Z) : bool :=
  match n with
  | O => well_encoded lo
  | S n' => all_well_encoded n' lo && all_well_encoded n' (lo + 2 ^ Z.of_nat n')
  end.

(** Objects that are there stay readable when the heap only grows. *)
Definition extends (st st' : jvm) : Prop :=
  ∀ k o, heap st !! k = Some o → heap st' !! k = Some o.

(** [repeatable op read]: whenever a call of [op] returns, the same call
    made again right after returns too, and the caller reads the same
    value in both results. *)
Definition repeatable {A B} (op : JNI A) (read : jvm → A → option B) : Prop :=
  ∀ st x st1, op st = Some (x, st1) →
    ∃ y st2, op st1 = Some (y, st2) ∧
             is_Some (read st1 x) ∧ read st2 x = read st1 x ∧ read st2 y = read st1 x.

(** A returned [jint] is read as itself. *)
Definition int_value (st : jvm) (v : Z) : option Z := Some v.

(** [new_string st s]: the reference and the VM after a string [s] is
    allocated in [st]. *)
Definition new_string (st : jvm) (s : list Z) : jobject * jvm :=
  (Some (fresh (dom (heap st))),
   set_heap (<[fresh (dom (heap st)) := JavaString s]> (heap st)) st).

(** The VM after [swapAttributes]: a new string and a new [Person] on top
    of the heap it started from. *)
Definition swapped (st : jvm) (n : list Z) (a : Z) : jobject * jvm :=
  let '(r1, st1) := new_string st (to_string a) in
  (Some (fresh (dom (heap st1))),
   set_heap (<[fresh (dom (heap st1)) :=
                 PersonObject r1 (wrap (Z.of_nat (length (encode n))))]> (heap st1)) st1).

End Spec.

(** ** Properties of the 32-bit arithmetic *)

Module JintFacts.
Import Jint.

Lemma wrap_in_range z : in_range (wrap z).
Proof.
  unfold in_range, wrap, min_jint, max_jint, half_modulus, modulus.
  pose proof (Z.mod_pos_bound (z + 2147483648) 4294967296). lia.
Qed.

Lemma wrap_small z : in_range z → wrap z = z.
Proof.
  unfold in_range, wrap, min_jint, max_jint, half_modulus, modulus. intros Hz.
  rewrite Z.mod_small; lia.
Qed.

Lemma wrap_congruent z : wrap z mod modulus = z mod modulus.
Proof.
  unfold wrap, half_modulus, modulus.
  rewrite Zminus_mod_idemp_l.
  f_equal. lia.
Qed.

(** Two integers with the same residue have the same representative. *)
Lemma wrap_eq_of_congruent x y : x mod modulus = y mod modulus → wrap x = wrap y.
Proof.
  unfold wrap, half_modulus, modulus. intros H.
  rewrite <- (Zplus_mod_idemp_l x), <- (Zplus_mod_idemp_l y), H. reflexivity.
Qed.

Lemma wrap_add_l x y : wrap (wrap x + y) = wrap (x + y).
Proof.
  apply wrap_eq_of_congruent.
  rewrite <- Zplus_mod_idemp_l, wrap_congruent, Zplus_mod_idemp_l. reflexivity.
Qed.

Lemma wrap_add_r x y : wrap (x + wrap y) = wrap (x + y).
Proof. rewrite (Z.add_comm x), wrap_add_l. f_equal. lia. Qed.

Lemma wrap_sub_l x y : wrap (wrap x - y) = wrap (x - y).
Proof. unfold Z.sub. apply wrap_add_l. Qed.

Lemma wrap_wrap x : wrap (wrap x) = wrap x.
Proof. apply wrap_small, wrap_in_range. Qed.

(** The three cases of a wrapped sum of two [jint]s. *)
Lemma wrap_cases z :
  min_jint + min_jint <= z <= max_jint + max_jint + 1 →
  wrap z = if z <? min_jint then z + modulus
           else if max_jint <? z then z - modulus else z.
Proof.
  unfold wrap, min_jint, max_jint, half_modulus, modulus. intros Hz.
  destruct (Z.ltb_spec z (-2147483648)); [|destruct (Z.ltb_spec 2147483647 z)].
  - replace (z + 2147483648) with ((z + 4294967296 + 2147483648) + (-1) * 4294967296) by lia.
    rewrite Z.mod_add by lia. rewrite Z.mod_small; lia.
  - replace (z + 2147483648) with ((z - 4294967296 + 2147483648) + 1 * 4294967296) by lia.
    rewrite Z.mod_add by lia. rewrite Z.mod_small; lia.
  - rewrite Z.mod_small; lia.
Qed.

End JintFacts.

(** ** Running JNI calls *)

Module JniFacts.
Import Jint Jni Cxx.

Lemma run_bind {A B} (m : JNI A) (f : A → JNI B) st :
  (m ≫= f) st = match m st with Some (a, st') => f a st' | None => None end.
Proof. reflexivity. Qed.

Lemma run_bind_some {A B} (m : JNI A) (f : A → JNI B) st a st' :
  m st = Some (a, st') → (m ≫= f) st = f a st'.
Proof. intros H. rewrite run_bind, H. reflexivity. Qed.

Lemma run_bind_none {A B} (m : JNI A) (f : A → JNI B) st :
  m st = None → (m ≫= f) st = None.
Proof. intros H. rewrite run_bind, H. reflexivity. Qed.

Lemma run_ret {A} (a : A) st : (mret a : JNI A) st = Some (a, st).
Proof. reflexivity. Qed.

Lemma set_native_id st : set_native (native st) st = st.
Proof. destruct st; reflexivity. Qed.

Lemma deref_run st k o : heap st !! k = Some o → deref (Some k) st = Some (o, st).
Proof. intros H. unfold deref. rewrite run_bind. simpl. rewrite H. reflexivity. Qed.

Lemma deref_null st : deref None st = None.
Proof. reflexivity. Qed.

Lemma deref_dangling st k : heap st !! k = None → deref (Some k) st = None.
Proof. intros H. unfold deref. rewrite run_bind. simpl. rewrite H. reflexivity. Qed.

(** A buffer comes back whole after it is allocated and freed. *)
Lemma new_buffer_run st b :
  new_buffer b st
  = Some (fresh (dom (native st)),
          set_native (<[fresh (dom (native st)) := b]> (native st)) st).
Proof. reflexivity. Qed.

Lemma fresh_buffer st : native st !! fresh (dom (native st)) = None.
Proof. apply not_elem_of_dom, is_fresh. Qed.

Lemma fresh_object st : heap st !! fresh (dom (heap st)) = None.
Proof. apply not_elem_of_dom, is_fresh. Qed.

Lemma free_new_buffer st b :
  free_buffer (fresh (dom (native st)))
    (set_native (<[fresh (dom (native st)) := b]> (native st)) st)
  = Some (tt, st).
Proof.
  unfold free_buffer. rewrite run_bind. simpl.
  rewrite lookup_insert_eq. unfold put, set_native. simpl.
  rewrite delete_insert_eq, delete_id by apply fresh_buffer.
  destruct st; reflexivity.
Qed.

Lemma read_buffer_run st k b : native st !! k = Some b → read_buffer k st = Some (b, st).
Proof. intros H. unfold read_buffer. rewrite run_bind. simpl. rewrite H. reflexivity. Qed.

Lemma load_run st p l (n : nat) x :
  points_to st p l → l !! n = Some x → load p (Z.of_nat n) st = Some (x, st).
Proof.
  intros Hp Hx. unfold load. destruct p as [a|b]; simpl in Hp.
  - rewrite run_bind, (run_bind_some _ _ _ _ _ (deref_run _ _ _ Hp)), run_ret.
    destruct (Z.ltb_spec (Z.of_nat n) 0); [lia|].
    rewrite Nat2Z.id, Hx. reflexivity.
  - rewrite (run_bind_some _ _ _ _ _ (read_buffer_run _ _ _ Hp)).
    destruct (Z.ltb_spec (Z.of_nat n) 0); [lia|].
    rewrite Nat2Z.id, Hx. reflexivity.
Qed.

Lemma GetArrayLength_run st a l :
  heap st !! a = Some (IntArray l) →
  GetArrayLength (Some a) st = Some (Z.of_nat (length l), st).
Proof.
  intros H. unfold GetArrayLength.
  rewrite (run_bind_some _ _ _ _ _ (deref_run _ _ _ H)). reflexivity.
Qed.

(** The accumulating loop of the array sum, started anywhere in the
    array: it folds the remaining elements into the accumulator and
    leaves the VM as it was. *)
Lemma sum_loop_run st p pre rest acc :
  points_to st p (pre ++ rest) →
  for_loop (length rest) (Z.of_nat (length pre))
    (λ i sum, e ← load p i; mret (add sum e)) acc st
  = Some (fold_left add rest acc, st).
Proof.
  revert pre acc. induction rest as [|x rest IH]; intros pre acc Hp; [reflexivity|].
  simpl for_loop. rewrite run_bind.
  rewrite (run_bind_some _ _ _ _ _
             (load_run st p (pre ++ x :: rest) (length pre) x Hp
                (list_lookup_middle pre rest x _ eq_refl))).
  rewrite run_ret.
  replace (Z.of_nat (length pre) + 1) with (Z.of_nat (length (pre ++ [x])))
    by (rewrite length_app; simpl; lia).
  rewrite IH; [reflexivity|]. rewrite <- app_assoc. exact Hp.
Qed.

(** Runs a call in hypothesis [H] up to the step that fails. *)
Ltac crashes H :=
  repeat first
    [ discriminate H
    | rewrite run_bind in H
    | progress simpl in H
    | match goal with E : heap _ !! _ = _ |- _ => rewrite E in H end ].

End JniFacts.

(** ** The array sum *)

Module ArraySumFacts.
Import Jint Jni Cxx NativeLib Spec JintFacts JniFacts.

Lemma total_app S T : total (S ++ T) = total S + total T.
Proof. unfold total. induction S as [|x S IH]; simpl; [reflexivity|]. rewrite IH. lia. Qed.

Lemma fold_add_wrap S acc : wrap (fold_left add S acc) = wrap (acc + total S).
Proof.
  revert acc. induction S as [|x S IH]; intros acc; simpl.
  - f_equal. lia.
  - rewrite IH. unfold add. rewrite wrap_add_l. f_equal. lia.
Qed.

Lemma fold_add_in_range S acc : in_range acc → in_range (fold_left add S acc).
Proof.
  revert acc. induction S as [|x S IH]; intros acc Hacc; simpl; [exact Hacc|].
  apply IH, wrap_in_range.
Qed.

Lemma wrapping_total_in_range S : in_range (wrapping_total S).
Proof. apply fold_add_in_range. unfold in_range, min_jint, max_jint. lia. Qed.

Lemma wrapping_total_wrap S : wrapping_total S = wrap (total S).
Proof.
  rewrite <- (wrap_small (wrapping_total S)) by apply wrapping_total_in_range.
  unfold wrapping_total. rewrite fold_add_wrap. reflexivity.
Qed.

Lemma GetIntArrayElements_run st a l :
  heap st !! a = Some (IntArray l) →
  ∃ p st', GetIntArrayElements (Some a) st = Some (p, st') ∧
           points_to st' p l ∧ heap st' = heap st ∧
           ∀ mode, mode = JNI_ABORT →
             ReleaseIntArrayElements (Some a) p mode st' = Some (tt, st).
Proof.
  intros H. unfold GetIntArrayElements.
  rewrite (run_bind_some _ _ _ _ _ (deref_run _ _ _ H)).
  rewrite run_bind. simpl. destruct (copying st) eqn:Hc.
  - rewrite run_bind, new_buffer_run, run_ret.
    eexists _, _. split; [reflexivity|]. split; [|split].
    + simpl. apply lookup_insert_eq.
    + reflexivity.
    + intros mode ->. unfold ReleaseIntArrayElements.
      rewrite (run_bind_some _ _ _ _ _ (deref_run (set_native _ st) _ _ H)).
      erewrite run_bind_some; [|apply read_buffer_run; simpl; apply lookup_insert_eq].
      rewrite run_bind, run_ret. apply free_new_buffer.
  - rewrite run_ret. eexists _, _. split; [reflexivity|]. split; [|split].
    + exact H.
    + reflexivity.
    + intros mode ->. unfold ReleaseIntArrayElements.
      rewrite (run_bind_some _ _ _ _ _ (deref_run _ _ _ H)).
      rewrite decide_True by reflexivity. reflexivity.
Qed.

(** The whole call: the wrapped fold of the elements, in the VM state it
    started from. *)
Lemma arraySum_run st thiz a S :
  heap st !! a = Some (IntArray S) →
  arraySum thiz (Some a) st = Some (wrapping_total S, st).
Proof.
  intros H. unfold Java_com_safeai_webrtcapp_MainActivity_CalculateArrySum.
  destruct (GetIntArrayElements_run st a S H) as (p & st' & Hget & Hp & Hheap & Hrel).
  rewrite (run_bind_some _ _ _ _ _ Hget).
  assert (H' : heap st' !! a = Some (IntArray S)) by (rewrite Hheap; exact H).
  rewrite (run_bind_some _ _ _ _ _ (GetArrayLength_run _ _ _ H')).
  rewrite Nat2Z.id.
  rewrite (run_bind_some _ _ _ _ _ (sum_loop_run st' p [] S 0 Hp)).
  rewrite (run_bind_some _ _ _ _ _ (Hrel JNI_ABORT eq_refl)).
  reflexivity.
Qed.

End ArraySumFacts.

(** ** [std::reverse] and [std::to_string] *)

Module CxxFacts.
Import Jni Cxx.

Lemma iter_swap_ends (a m b : list Z) x y :
  iter_swap (length a) (length a + S (length m)) (a ++ x :: m ++ y :: b)
  = a ++ y :: m ++ x :: b.
Proof.
  unfold iter_swap.
  rewrite list_lookup_middle by reflexivity.
  replace (a ++ x :: m ++ y :: b) with ((a ++ x :: m) ++ y :: b)
    by (rewrite <- app_assoc; reflexivity).
  rewrite list_lookup_middle by (rewrite length_app; simpl; lia).
  rewrite <- app_assoc. simpl.
  rewrite (insert_app_r_alt a _ (length a)) by lia.
  rewrite Nat.sub_diag. simpl.
  rewrite insert_app_r_alt by lia.
  replace (length a + S (length m) - length a)%nat with (S (length m)) by lia.
  simpl. f_equal. f_equal.
  rewrite (insert_app_r_alt m _ (length m)) by lia.
  rewrite Nat.sub_diag. reflexivity.
Qed.

(** The swapping loop reverses the part of the string between its two
    positions and leaves the rest alone. *)
Lemma reverse_loop_middle n : ∀ a m b : list Z,
  (length m ≤ n)%nat →
  reverse_loop n (length a) (length a + length m) (a ++ m ++ b)
  = a ++ rev m ++ b.
Proof.
  induction n as [|n IH]; intros a m b Hn.
  - destruct m; [reflexivity | simpl in Hn; lia].
  - destruct m as [|x m]; simpl reverse_loop.
    + rewrite Nat.add_0_r. destruct (Nat.ltb_spec (length a) (Nat.pred (length a))); [lia|].
      reflexivity.
    + destruct m as [|y m _] using rev_ind.
      * simpl length. replace (Nat.pred (length a + 1)) with (length a) by lia.
        rewrite Nat.ltb_irrefl. reflexivity.
      * simpl length in Hn. rewrite length_app in Hn |- *. simpl length in Hn |- *.
        replace (Nat.pred (length a + S (length m + 1))) with (length a + S (length m))%nat by lia.
        destruct (Nat.ltb_spec (length a) (length a + S (length m))); [|lia].
        replace (a ++ x :: (m ++ [y]) ++ b) with (a ++ x :: m ++ y :: b)
          by (rewrite <- app_assoc; reflexivity).
        rewrite iter_swap_ends.
        specialize (IH (a ++ [y]) m (x :: b)).
        rewrite length_app in IH. simpl length in IH.
        replace (S (length a)) with (length a + 1)%nat by lia.
        replace (length a + S (length m))%nat with (length a + 1 + length m)%nat by lia.
        replace (a ++ y :: m ++ x :: b) with ((a ++ [y]) ++ m ++ x :: b)
          by (rewrite <- app_assoc; reflexivity).
        rewrite IH by lia.
        simpl. rewrite rev_app_distr. simpl.
        rewrite <- !app_assoc. reflexivity.
Qed.

Lemma std_reverse_rev (s : std_string) : std_reverse s = rev s.
Proof.
  unfold std_reverse. destruct s as [|x s]; [reflexivity|].
  change (length (x :: s) =? 0)%nat with false. cbv iota.
  pose proof (reverse_loop_middle (length (x :: s)) [] (x :: s) [] (le_n _)) as H.
  rewrite !app_nil_r in H. exact H.
Qed.

End CxxFacts.

(** ** Decimal numerals *)

Module DecimalNumeral.
Import Cxx Spec.

Lemma digit_char v : is_digit (48 + v mod 10) = true.
Proof.
  unfold is_digit. pose proof (Z.mod_pos_bound v 10).
  apply andb_true_intro; split; apply Z.leb_le; lia.
Qed.

Lemma digits_value_digits n : ∀ v acc,
  0 <= v < 2 ^ Z.of_nat n →
  digits_value 0 (digits n v acc) = digits_value v acc.
Proof.
  induction n as [|n IH]; intros v acc Hv.
  - simpl in *. replace v with 0 by lia. reflexivity.
  - simpl digits. rewrite Nat2Z.inj_succ, Z.pow_succ_r in Hv by lia.
    assert (Hdm := Z.div_mod v 10 ltac:(lia)).
    assert (Hm := Z.mod_pos_bound v 10 ltac:(lia)).
    destruct (Z.eqb_spec (v / 10) 0) as [Hq|Hq].
    + simpl. rewrite digit_char. f_equal. lia.
    + rewrite IH.
      * simpl. rewrite digit_char. f_equal. lia.
      * split; [apply Z.div_pos; lia|].
        apply Z.div_lt_upper_bound; lia.
Qed.

Lemma digits_head n : ∀ v acc,
  0 < v < 2 ^ Z.of_nat n →
  ∃ c rest, digits n v acc = c :: rest ∧ c ≠ 48.
Proof.
  induction n as [|n IH]; intros v acc Hv.
  - simpl in Hv. lia.
  - simpl digits. rewrite Nat2Z.inj_succ, Z.pow_succ_r in Hv by lia.
    assert (Hdm := Z.div_mod v 10 ltac:(lia)).
    assert (Hm := Z.mod_pos_bound v 10 ltac:(lia)).
    destruct (Z.eqb_spec (v / 10) 0) as [Hq|Hq].
    + eexists _, _. split; [reflexivity|]. lia.
    + apply IH. assert (0 <= v / 10) by (apply Z.div_pos; lia).
      split; [lia|]. apply Z.div_lt_upper_bound; lia.
Qed.

Lemma log2_fuel v : 0 <= v → 0 <= v < 2 ^ Z.of_nat (S (Z.to_nat (Z.log2 v))).
Proof.
  intros Hv. rewrite Nat2Z.inj_succ, Z2Nat.id by apply Z.log2_nonneg.
  destruct (Z.eq_dec v 0) as [->|Hne].
  - simpl. lia.
  - pose proof (Z.log2_spec v ltac:(lia)). lia.
Qed.

Lemma unsigned_value_digits v :
  0 <= v → unsigned_value (digits (S (Z.to_nat (Z.log2 v))) v []) = Some v.
Proof.
  intros Hv. pose proof (log2_fuel v Hv) as Hfuel.
  pose proof (digits_value_digits _ v [] Hfuel) as Hval. simpl digits_value at 2 in Hval.
  destruct (Z.eq_dec v 0) as [->|Hne].
  - reflexivity.
  - destruct (digits_head (S (Z.to_nat (Z.log2 v))) v []) as (c & rest & Heq & Hc); [lia|].
    rewrite Heq in Hval |- *. unfold unsigned_value.
    destruct rest; [exact Hval|].
    destruct (Z.eqb_spec c 48); [contradiction|]. exact Hval.
Qed.

(** [std::to_string] writes the decimal string representation. *)
Lemma to_string_decimal v : is_decimal_of (to_string v) v.
Proof.
  unfold is_decimal_of, to_string. destruct (Z.ltb_spec v 0) as [Hneg|Hpos].
  - unfold decimal_value. change (45 =? 45) with true. cbv iota.
    rewrite unsigned_value_digits by lia.
    destruct (Z.eqb_spec (- v) 0); [lia|]. f_equal. lia.
  - pose proof (unsigned_value_digits v Hpos) as H.
    destruct (digits (S (Z.to_nat (Z.log2 v))) v []) as [|c rest] eqn:Heq; [discriminate|].
    unfold decimal_value. destruct (Z.eqb_spec c 45) as [->|Hc]; [|exact H].
    exfalso. (* a numeral without sign does not start with '-' *)
    unfold unsigned_value in H. simpl in H.
    destruct rest; simpl in H; discriminate.
Qed.

(** Every character [std::to_string] writes is a one-byte character. *)
Lemma digits_ascii n : ∀ v acc,
  Forall (λ c, 1 <= c <= 127) acc → Forall (λ c, 1 <= c <= 127) (digits n v acc).
Proof.
  induction n as [|n IH]; intros v acc Hacc; [exact Hacc|].
  simpl. assert (Hm := Z.mod_pos_bound v 10 ltac:(lia)).
  assert (Forall (λ c, 1 <= c <= 127) ((48 + v mod 10) :: acc))
    by (constructor; [lia | exact Hacc]).
  destruct (v / 10 =? 0); [assumption | apply IH; assumption].
Qed.

Lemma to_string_ascii v : Forall (λ c, 1 <= c <= 127) (to_string v).
Proof.
  unfold to_string. destruct (v <? 0).
  - constructor; [lia|]. apply digits_ascii. constructor.
  - apply digits_ascii. constructor.
Qed.

Lemma digits_value_snoc s : ∀ acc c,
  digits_value acc (s ++ [c])
  = match digits_value acc s with
    | Some w => if is_digit c then Some (10 * w + (c - 48)) else None
    | None => None
    end.
Proof.
  induction s as [|d s IH]; intros acc c; simpl.
  - destruct (is_digit c); reflexivity.
  - destruct (is_digit d); [apply IH | reflexivity].
Qed.

Lemma digits_acc n : ∀ v acc, digits n v acc = digits n v [] ++ acc.
Proof.
  induction n as [|n IH]; intros v acc; [reflexivity|].
  simpl. destruct (v / 10 =? 0); [reflexivity|].
  rewrite (IH _ (_ :: acc)), (IH _ [_]), <- app_assoc. reflexivity.
Qed.

Lemma is_digit_range c : is_digit c = true → 48 <= c <= 57.
Proof. unfold is_digit. intros H. apply andb_prop in H as [H1 H2]. lia. Qed.

(** A numeral that does not start with a zero is the digits of its value. *)
Lemma digits_of_value s : ∀ u c0 s0,
  s = c0 :: s0 → c0 ≠ 48 → digits_value 0 s = Some u →
  0 < u ∧ ∀ n, u < 2 ^ Z.of_nat n → digits n u [] = s.
Proof.
  induction s as [|c s IH] using rev_ind; intros u c0 s0 Hs Hc0 Hu; [discriminate|].
  rewrite digits_value_snoc in Hu.
  destruct (digits_value 0 s) as [w|] eqn:Hw; [|discriminate].
  destruct (is_digit c) eqn:Hc; [|discriminate]. injection Hu as <-.
  apply is_digit_range in Hc.
  destruct s as [|c1 s1].
  - injection Hw as <-. injection Hs as <- <-. split; [lia|].
    intros [|n] Hn; [simpl in Hn; lia|]. simpl.
    replace ((10 * 0 + (c - 48)) / 10) with 0 by (symmetry; apply Z.div_small; lia).
    simpl. f_equal. rewrite Z.mod_small by lia. lia.
  - injection Hs as <- <-.
    destruct (IH w c1 s1 eq_refl Hc0 eq_refl) as [Hpos Hdig].
    split; [lia|].
    intros [|n] Hn; [simpl in Hn; lia|]. simpl digits.
    rewrite Nat2Z.inj_succ, Z.pow_succ_r in Hn by lia.
    replace ((10 * w + (c - 48)) / 10) with w
      by (apply Z.div_unique with (r := c - 48); lia).
    replace ((10 * w + (c - 48)) mod 10) with (c - 48)
      by (apply Z.mod_unique with (q := w); lia).
    destruct (Z.eqb_spec w 0); [lia|].
    rewrite digits_acc, Hdig by lia. f_equal. f_equal. lia.
Qed.

Lemma unsigned_value_unique s u :
  unsigned_value s = Some u →
  0 <= u ∧ s = digits (S (Z.to_nat (Z.log2 u))) u [].
Proof.
  unfold unsigned_value. destruct s as [|c [|c' s]]; [discriminate| |].
  - simpl. destruct (is_digit c) eqn:Hc; [|discriminate]. intros [= <-].
    apply is_digit_range in Hc. replace (10 * 0 + (c - 48)) with (c - 48) by lia.
    split; [lia|]. simpl digits.
    replace ((c - 48) / 10) with 0 by (symmetry; apply Z.div_small; lia).
    simpl. f_equal. rewrite Z.mod_small by lia. lia.
  - destruct (Z.eqb_spec c 48) as [|Hne]; [discriminate|]. intros Hu.
    destruct (digits_of_value _ u c (c' :: s) eq_refl Hne Hu) as [Hpos Hdig].
    split; [lia|]. symmetry. apply Hdig. apply log2_fuel. lia.
Qed.

(** A value has one decimal string representation: the one
    [std::to_string] writes. *)
Lemma decimal_unique s v : is_decimal_of s v ↔ s = to_string v.
Proof.
  split; [|intros ->; apply to_string_decimal].
  unfold is_decimal_of, decimal_value, to_string.
  destruct s as [|c s]; [discriminate|].
  destruct (Z.eqb_spec c 45) as [->|Hc].
  - destruct (unsigned_value s) as [u|] eqn:Hu; [|discriminate].
    destruct (Z.eqb_spec u 0); [discriminate|]. intros [= <-].
    apply unsigned_value_unique in Hu. destruct Hu as [Hpos ->].
    destruct (Z.ltb_spec (- u) 0); [|lia].
    rewrite Z.opp_involutive. reflexivity.
  - intros Hu. apply unsigned_value_unique in Hu. destruct Hu as [Hpos Hs].
    destruct (Z.ltb_spec v 0); [lia|]. exact Hs.
Qed.

End DecimalNumeral.

(** ** Strings across the boundary *)

Module StringFacts.
Import Jni Cxx Spec.

Lemma encode_cons c s : encode (c :: s) = encode_unit c ++ encode s.
Proof. reflexivity. Qed.

Lemma encode_unit_one_byte c : one_byte c → encode_unit c = [c].
Proof.
  unfold one_byte, encode_unit. intros Hc.
  destruct (Z.leb_spec 1 c); [|lia]. destruct (Z.leb_spec c 127); [|lia]. reflexivity.
Qed.

Lemma encode_unit_multi c : ¬ one_byte c → (2 ≤ length (encode_unit c))%nat.
Proof.
  unfold one_byte, encode_unit. intros Hc.
  destruct (Z.leb_spec 1 c); destruct (Z.leb_spec c 127); simpl;
    try lia; destruct (c <=? 2047); simpl; lia.
Qed.

Lemma encode_unit_length c : (1 ≤ length (encode_unit c))%nat.
Proof.
  destruct (decide (one_byte c)) as [H|H].
  - rewrite encode_unit_one_byte by exact H. simpl. lia.
  - pose proof (encode_unit_multi c H). lia.
Qed.

(** No byte of an encoded string is NUL: U+0000 is written 0xC0 0x80. *)
Lemma encode_unit_nonzero c : Forall (λ b, b ≠ 0) (encode_unit c).
Proof.
  unfold encode_unit.
  destruct (Z.leb_spec 1 c); destruct (Z.leb_spec c 127); simpl;
    try (destruct (c <=? 2047));
    repeat (apply Forall_cons; split); try apply Forall_nil_2;
    first [ lia
          | intros Hz; apply Z.lor_eq_0_iff in Hz; destruct Hz as [Hz _];
            discriminate Hz ].
Qed.

Lemma encode_nonzero s : Forall (λ b, b ≠ 0) (encode s).
Proof.
  induction s as [|c s IH]; [constructor|].
  rewrite encode_cons. apply Forall_app. split; [apply encode_unit_nonzero | exact IH].
Qed.

Lemma encode_one_byte s : Forall one_byte s → encode s = s.
Proof.
  induction 1 as [|c s Hc _ IH]; [reflexivity|].
  rewrite encode_cons, encode_unit_one_byte, IH by exact Hc. reflexivity.
Qed.

(** The encoding is never shorter than the string, and longer as soon as
    one character needs more than one byte. *)
Lemma encode_length s : (length s ≤ length (encode s))%nat.
Proof.
  induction s as [|c s IH]; [reflexivity|].
  rewrite encode_cons, length_app. pose proof (encode_unit_length c). simpl. lia.
Qed.

Lemma encode_length_multi s :
  Exists (λ c, ¬ one_byte c) s → (length s < length (encode s))%nat.
Proof.
  induction 1 as [c s Hc|c s _ IH]; rewrite encode_cons, length_app; simpl.
  - pose proof (encode_unit_multi c Hc). pose proof (encode_length s). lia.
  - pose proof (encode_unit_length c). lia.
Qed.

Lemma c_string_terminated l r : Forall (λ b, b ≠ 0) l → c_string (l ++ 0 :: r) = l.
Proof.
  induction 1 as [|b l Hb _ IH]; [reflexivity|].
  simpl. destruct (Z.eqb_spec b 0); [contradiction|]. rewrite IH. reflexivity.
Qed.

Lemma c_string_c_str s : Forall (λ b, b ≠ 0) s → c_string (c_str s) = s.
Proof. apply c_string_terminated. Qed.

Lemma one_byte_nonzero s : Forall one_byte s → Forall (λ b, b ≠ 0) s.
Proof. intros H. eapply Forall_impl; [exact H|]. unfold one_byte. intros; lia. Qed.

Lemma decode_one_byte s : Forall one_byte s → decode s = Some s.
Proof.
  induction 1 as [|c s Hc _ IH]; [reflexivity|].
  unfold one_byte in Hc. simpl.
  destruct (Z.leb_spec 1 c); [|lia]. destruct (Z.leb_spec c 127); [|lia].
  simpl. rewrite IH. reflexivity.
Qed.

Lemma encode_replicate_length (k : nat) (c : Z) :
  length (encode (replicate k c)) = (k * length (encode_unit c))%nat.
Proof.
  induction k as [|k IH]; [reflexivity|].
  simpl replicate. rewrite encode_cons, length_app, IH. simpl. lia.
Qed.

(** *** Encoding and decoding are inverse on the UTF-16 code units *)

Lemma all_well_encoded_spec n : ∀ lo c,
  all_well_encoded n lo = true → lo <= c < lo + 2 ^ Z.of_nat n → well_encoded c = true.
Proof.
  induction n as [|n IH]; intros lo c H Hc.
  - simpl in *. replace c with lo by lia. exact H.
  - simpl in H. apply andb_prop in H as [Hl Hr].
    rewrite Nat2Z.inj_succ, Z.pow_succ_r in Hc by lia.
    destruct (Z.lt_ge_cases c (lo + 2 ^ Z.of_nat n)).
    + apply (IH lo); [exact Hl | lia].
    + apply (IH (lo + 2 ^ Z.of_nat n)); [exact Hr | lia].
Qed.

Lemma well_encoded_all : all_well_encoded 16 0 = true.
Proof. vm_compute. reflexivity. Qed.

Lemma well_encoded_unit c : 0 <= c < 65536 → well_encoded c = true.
Proof.
  intros Hc. apply (all_well_encoded_spec 16 0 c well_encoded_all). simpl. lia.
Qed.

Lemma decode_encode_unit c rest :
  0 <= c < 65536 → decode (encode_unit c ++ rest) = cons c <$> decode rest.
Proof.
  intros Hc. pose proof (well_encoded_unit c Hc) as H. unfold well_encoded in H.
  destruct (encode_unit c) as [|b [|c1 [|c2 [|]]]]; try discriminate H.
  - apply andb_prop in H as [H Hv]. apply Z.eqb_eq in Hv. subst b.
    simpl. rewrite H. destruct (decode rest); reflexivity.
  - repeat (apply andb_prop in H as [H ?]).
    apply negb_true_iff in H.
    match goal with Hv : (_ =? c) = true |- _ => apply Z.eqb_eq in Hv end.
    simpl. rewrite H.
    repeat match goal with Hx : _ = true |- _ => rewrite Hx; clear Hx end.
    destruct (decode rest); simpl; congruence.
  - repeat (apply andb_prop in H as [H ?]).
    apply negb_true_iff in H.
    match goal with Hv : (_ =? c) = true |- _ => apply Z.eqb_eq in Hv end.
    match goal with Hx : negb _ = true |- _ => apply negb_true_iff in Hx end.
    simpl. rewrite H.
    repeat match goal with Hx : _ = _ :> bool |- _ => rewrite Hx; clear Hx end.
    simpl.
    destruct (decode rest); simpl; congruence.
Qed.

(** A string survives the trip to native code and back. *)
Lemma decode_encode s : Forall (λ c, 0 <= c < 65536) s → decode (encode s) = Some s.
Proof.
  induction 1 as [|c s Hc _ IH]; [reflexivity|].
  rewrite encode_cons, decode_encode_unit, IH by exact Hc. reflexivity.
Qed.

End StringFacts.

(** ** Running the string and record entry points *)

Module NativeLibFacts.
Import Jint Jni Cxx NativeLib Spec.
Import JintFacts JniFacts ArraySumFacts CxxFacts DecimalNumeral StringFacts.

(** Borrowing the characters of a string: the native code gets the
    encoding, and the VM is back in its first state after the release. *)
Lemma borrow_chars st k s :
  heap st !! k = Some (JavaString s) →
  ∃ p st', GetStringUTFChars (Some k) st = Some (p, st') ∧
           string_of_chars p st' = Some (encode s, st') ∧
           ReleaseStringUTFChars (Some k) p st' = Some (tt, st).
Proof.
  intros H. unfold GetStringUTFChars, ReleaseStringUTFChars, string_of_chars.
  rewrite (run_bind_some _ _ _ _ _ (deref_run _ _ _ H)), new_buffer_run.
  eexists _, _. split; [reflexivity|]. split.
  - erewrite run_bind_some; [|apply read_buffer_run; simpl; apply lookup_insert_eq].
    rewrite run_ret, c_string_terminated by apply encode_nonzero. reflexivity.
  - rewrite (run_bind_some _ _ _ _ _ (deref_run (set_native _ st) _ _ H)).
    apply free_new_buffer.
Qed.

Lemma NewStringUTF_run st (s : std_string) :
  Forall (λ b, b ≠ 0) s →
  NewStringUTF (c_str s) st = new_string st <$> decode s.
Proof.
  intros Hs. unfold NewStringUTF. rewrite c_string_c_str by exact Hs.
  rewrite run_bind. destruct (decode s); reflexivity.
Qed.

Lemma reverseString_run st thiz k s :
  heap st !! k = Some (JavaString s) →
  reverseString thiz (Some k) st = new_string st <$> decode (rev (encode s)).
Proof.
  intros H. unfold Java_com_safeai_webrtcapp_MainActivity_ReversesString.
  destruct (borrow_chars st k s H) as (p & st' & Hget & Hstr & Hrel).
  rewrite (run_bind_some _ _ _ _ _ Hget), (run_bind_some _ _ _ _ _ Hstr).
  rewrite (run_bind_some _ _ _ _ _ Hrel).
  rewrite std_reverse_rev. apply NewStringUTF_run.
  apply List.Forall_rev, encode_nonzero.
Qed.

(** The call is [NewStringUTF] on the exact reversal of the bytes of the
    string. *)
Lemma reverseString_hands_over st thiz k s :
  heap st !! k = Some (JavaString s) →
  reverseString thiz (Some k) st = NewStringUTF (c_str (rev (encode s))) st.
Proof.
  intros H. unfold Java_com_safeai_webrtcapp_MainActivity_ReversesString.
  destruct (borrow_chars st k s H) as (p & st' & Hget & Hstr & Hrel).
  rewrite (run_bind_some _ _ _ _ _ Hget), (run_bind_some _ _ _ _ _ Hstr).
  rewrite (run_bind_some _ _ _ _ _ Hrel).
  rewrite std_reverse_rev. reflexivity.
Qed.

Lemma GetObjectClass_person st p nm a :
  heap st !! p = Some (PersonObject nm a) →
  GetObjectClass (Some p) st = Some (PersonClass, st).
Proof.
  intros H. unfold GetObjectClass.
  rewrite (run_bind_some _ _ _ _ _ (deref_run _ _ _ H)). reflexivity.
Qed.

Lemma GetFieldID_name st :
  GetFieldID PersonClass "name" "Ljava/lang/String;" st
  = Some (Some (PersonClass, "name"%string), st).
Proof. reflexivity. Qed.

Lemma GetFieldID_age st :
  GetFieldID PersonClass "age" "I" st = Some (Some (PersonClass, "age"%string), st).
Proof. reflexivity. Qed.

Lemma GetMethodID_init st :
  GetMethodID PersonClass "<init>" "(Ljava/lang/String;I)V" st
  = Some (Some (PersonClass, "(Ljava/lang/String;I)V"%string), st).
Proof. reflexivity. Qed.

Lemma GetObjectField_name st p nm a :
  heap st !! p = Some (PersonObject nm a) →
  GetObjectField (Some p) (Some (PersonClass, "name"%string)) st = Some (nm, st).
Proof.
  intros H. unfold GetObjectField.
  rewrite (run_bind_some _ _ _ _ _ (deref_run _ _ _ H)). reflexivity.
Qed.

Lemma GetIntField_age st p nm a :
  heap st !! p = Some (PersonObject nm a) →
  GetIntField (Some p) (Some (PersonClass, "age"%string)) st = Some (a, st).
Proof.
  intros H. unfold GetIntField.
  rewrite (run_bind_some _ _ _ _ _ (deref_run _ _ _ H)). reflexivity.
Qed.

Lemma swapAttributes_run st thiz p nk n a :
  heap st !! p = Some (PersonObject (Some nk) a) →
  heap st !! nk = Some (JavaString n) →
  swapAttributes thiz (Some p) st = Some (swapped st n a).
Proof.
  intros Hp Hn. unfold Java_com_safeai_webrtcapp_MainActivity_swapPersonAttributes.
  destruct (borrow_chars st nk n Hn) as (b & st' & Hget & Hstr & Hrel).
  rewrite (run_bind_some _ _ _ _ _ (GetObjectClass_person _ _ _ _ Hp)).
  rewrite (run_bind_some _ _ _ _ _ (GetFieldID_name _)).
  rewrite (run_bind_some _ _ _ _ _ (GetFieldID_age _)).
  rewrite (run_bind_some _ _ _ _ _ (GetObjectField_name _ _ _ _ Hp)).
  rewrite (run_bind_some _ _ _ _ _ Hget), (run_bind_some _ _ _ _ _ Hstr).
  rewrite (run_bind_some _ _ _ _ _ Hrel).
  rewrite (run_bind_some _ _ _ _ _ (GetIntField_age _ _ _ _ Hp)).
  rewrite (run_bind_some _ _ _ _ _ (GetMethodID_init _)).
  simpl NativeLib.name. simpl NativeLib.age.
  rewrite run_bind.
  rewrite NewStringUTF_run by (apply one_byte_nonzero, to_string_ascii).
  rewrite decode_one_byte by apply to_string_ascii.
  reflexivity.
Qed.

(** *** Releasing the elements of an array *)

(** Releasing a native copy with [JNI_ABORT] frees it and leaves the managed
    heap alone, whatever the copy holds by then. *)
Lemma release_abort_no_write_back (st : jvm) (k b : nat) (S view : list Z) :
  heap st !! k = Some (IntArray S) →
  native st !! b = Some view →
  ReleaseIntArrayElements (Some k) (Copied b) JNI_ABORT st
  = Some (tt, set_native (delete b (native st)) st).
Proof.
  intros Hk Hb. unfold ReleaseIntArrayElements.
  rewrite (run_bind_some _ _ _ _ _ (deref_run _ _ _ Hk)).
  rewrite (run_bind_some _ _ _ _ _ (read_buffer_run _ _ _ Hb)).
  rewrite run_bind, run_ret. unfold free_buffer. rewrite run_bind. simpl.
  rewrite Hb. reflexivity.
Qed.

(** With mode 0 the same release would have copied the view into the array. *)
Lemma release_default_writes_back (st : jvm) (k b : nat) (S view : list Z) :
  heap st !! k = Some (IntArray S) →
  native st !! b = Some view →
  ∃ st', ReleaseIntArrayElements (Some k) (Copied b) JNI_DEFAULT st = Some (tt, st') ∧
         heap st' !! k = Some (IntArray view).
Proof.
  intros Hk Hb. unfold ReleaseIntArrayElements.
  rewrite (run_bind_some _ _ _ _ _ (deref_run _ _ _ Hk)).
  rewrite (run_bind_some _ _ _ _ _ (read_buffer_run _ _ _ Hb)).
  rewrite run_bind. simpl. unfold free_buffer. rewrite run_bind. simpl.
  rewrite Hb. eexists. split; [reflexivity|]. simpl. apply lookup_insert_eq.
Qed.

(** *** What [swapAttributes] leaves behind *)

Lemma new_string_spec (st : jvm) (s : list Z) :
  ∃ r, new_string st s = (Some r, set_heap (<[r := JavaString s]> (heap st)) st) ∧
       heap st !! r = None.
Proof. eexists. split; [reflexivity | apply fresh_object]. Qed.

Lemma swapped_spec (st : jvm) (n : list Z) (a : Z) :
  ∃ r1 r2 st',
    swapped st n a = (Some r2, st') ∧
    heap st !! r1 = None ∧ heap st !! r2 = None ∧ r1 ≠ r2 ∧
    heap st' !! r1 = Some (JavaString (to_string a)) ∧
    heap st' !! r2
    = Some (PersonObject (Some r1) (wrap (Z.of_nat (length (encode n))))) ∧
    (∀ k o, heap st !! k = Some o → heap st' !! k = Some o) ∧
    native st' = native st.
Proof.
  unfold swapped, new_string.
  set (r1 := fresh (dom (heap st))).
  set (st1 := set_heap (<[r1 := JavaString (to_string a)]> (heap st)) st).
  set (r2 := fresh (dom (heap st1))).
  assert (H1 : heap st !! r1 = None) by apply fresh_object.
  assert (H2 : heap st1 !! r2 = None) by apply fresh_object.
  assert (Hne : r1 ≠ r2).
  { intros Heq. rewrite <- Heq in H2. simpl in H2. rewrite lookup_insert_eq in H2. discriminate. }
  exists r1, r2. eexists. split; [reflexivity|]. simpl in *.
  rewrite lookup_insert_ne in H2 by exact Hne.
  repeat split; try assumption.
  - rewrite lookup_insert_ne by (intros Heq; apply Hne; symmetry; exact Heq).
    apply lookup_insert_eq.
  - apply lookup_insert_eq.
  - intros k o Hk.
    rewrite !lookup_insert_ne by (intros ->; congruence). exact Hk.
Qed.

Lemma returned_person_swapped (st : jvm) (n : list Z) (a : Z) :
  returned_person (Some (swapped st n a))
  = Some {| pname := to_string a; page := wrap (Z.of_nat (length (encode n))) |}.
Proof.
  destruct (swapped_spec st n a) as (r1 & r2 & st' & -> & _ & _ & _ & Hs & Hp & _).
  unfold returned_person, person_at, string_at. simpl.
  rewrite Hp. simpl. rewrite Hs. reflexivity.
Qed.

(** *** Records and strings as values *)

Lemma string_at_inv (st : jvm) (r : jobject) (s : list Z) :
  string_at st r = Some s ↔ ∃ k, r = Some k ∧ heap st !! k = Some (JavaString s).
Proof.
  unfold string_at. split.
  - destruct r as [k|]; [|discriminate]. simpl.
    destruct (heap st !! k) as [[| |]|] eqn:Hk; simpl; try discriminate.
    intros [= ->]. eauto.
  - intros (k & -> & H). simpl. rewrite H. reflexivity.
Qed.

Lemma person_at_inv (st : jvm) (p : nat) (n : list Z) (a : Z) :
  person_at st (Some p) = Some {| pname := n; page := a |} ↔
  ∃ nk, heap st !! p = Some (PersonObject (Some nk) a) ∧
        heap st !! nk = Some (JavaString n).
Proof.
  unfold person_at. simpl. split.
  - destruct (heap st !! p) as [[| |nm a']|] eqn:Hp; simpl; try discriminate.
    destruct (string_at st nm) as [s|] eqn:Hs; simpl; [|discriminate].
    intros [= -> ->]. apply string_at_inv in Hs. destruct Hs as (k & -> & Hk). eauto.
  - intros (nk & Hp & Hn). rewrite Hp. simpl.
    unfold string_at. simpl. rewrite Hn. reflexivity.
Qed.

(** What the caller reads in the record [swapAttributes] returns. *)
Lemma swapAttributes_returns (st : jvm) (thiz : jobject) (p : nat) (n : list Z) (a : Z) :
  person_at st (Some p) = Some {| pname := n; page := a |} →
  returned_person (swapAttributes thiz (Some p) st)
  = Some {| pname := to_string a; page := wrap (Z.of_nat (length (encode n))) |}.
Proof.
  intros H. apply person_at_inv in H. destruct H as (nk & Hp & Hn).
  rewrite (swapAttributes_run st thiz p nk n a Hp Hn). apply returned_person_swapped.
Qed.

(** *** Calls that fail *)

(** A call returns only on an argument of the type its signature names. *)
Lemma arraySum_inv st thiz array v st' :
  arraySum thiz array st = Some (v, st') →
  ∃ k S, array = Some k ∧ heap st !! k = Some (IntArray S).
Proof.
  intros H. unfold Java_com_safeai_webrtcapp_MainActivity_CalculateArrySum in H.
  destruct array as [k|]; [|discriminate H].
  destruct (heap st !! k) as [[S|s|nm a]|] eqn:Hk; [eauto | exfalso ..];
    unfold GetIntArrayElements, deref in H; crashes H.
Qed.

Lemma reverseString_inv st thiz input r st' :
  reverseString thiz input st = Some (r, st') →
  ∃ k s, input = Some k ∧ heap st !! k = Some (JavaString s).
Proof.
  intros H. unfold Java_com_safeai_webrtcapp_MainActivity_ReversesString in H.
  destruct input as [k|]; [|discriminate H].
  destruct (heap st !! k) as [[S|s|nm a]|] eqn:Hk; [exfalso | eauto | exfalso ..];
    unfold GetStringUTFChars, deref in H; crashes H.
Qed.

Lemma swapAttributes_inv st thiz person r st' :
  swapAttributes thiz person st = Some (r, st') →
  ∃ p nk n a, person = Some p ∧
    heap st !! p = Some (PersonObject (Some nk) a) ∧
    heap st !! nk = Some (JavaString n).
Proof.
  intros H. unfold Java_com_safeai_webrtcapp_MainActivity_swapPersonAttributes in H.
  destruct person as [p|]; [|discriminate H].
  destruct (heap st !! p) as [[S|s|nm a]|] eqn:Hp.
  1,2,4: exfalso; unfold GetObjectClass, GetFieldID, GetObjectField, deref in H; crashes H.
  destruct nm as [nk|].
  2:{ exfalso.
      unfold GetObjectClass, GetFieldID, GetObjectField, GetStringUTFChars, deref in H;
        crashes H. }
  destruct (heap st !! nk) as [[S|s|nm' a']|] eqn:Hn; [exfalso | eauto 10 | exfalso ..];
    unfold GetObjectClass, GetFieldID, GetObjectField, GetStringUTFChars, deref in H;
    crashes H.
Qed.

(** *** A heap that only grows *)

Lemma string_at_extends st st' r s :
  extends st st' → string_at st r = Some s → string_at st' r = Some s.
Proof.
  intros Hext H. apply string_at_inv in H. destruct H as (k & -> & Hk).
  apply string_at_inv. eauto.
Qed.

Lemma person_at_extends st st' r v :
  extends st st' → person_at st r = Some v → person_at st' r = Some v.
Proof.
  intros Hext H. destruct r as [p|]; [|discriminate]. destruct v as [n a].
  apply person_at_inv in H. destruct H as (nk & Hp & Hn).
  apply person_at_inv. eauto.
Qed.

Lemma new_string_extends st s r st' :
  new_string st s = (r, st') → extends st st' ∧ string_at st' r = Some s.
Proof.
  destruct (new_string_spec st s) as (k & -> & Hk). intros [= <- <-]. split.
  - intros j o Hj. simpl. rewrite lookup_insert_ne by congruence. exact Hj.
  - unfold string_at. simpl. rewrite lookup_insert_eq. reflexivity.
Qed.

Lemma returned_string_new st o :
  returned_string (new_string st <$> o) = o.
Proof.
  destruct o as [s|]; [|reflexivity].
  unfold returned_string, string_at. simpl. rewrite lookup_insert_eq. reflexivity.
Qed.

(** *** Calling twice *)

Lemma arraySum_repeatable thiz array : repeatable (arraySum thiz array) int_value.
Proof.
  intros st x st1 H.
  destruct (arraySum_inv _ _ _ _ _ H) as (k & S & -> & Hk).
  rewrite (arraySum_run st thiz k S Hk) in H. injection H as <- <-.
  exists (wrapping_total S), st. rewrite (arraySum_run st thiz k S Hk).
  unfold int_value. eauto.
Qed.

Lemma reverseString_repeatable thiz input : repeatable (reverseString thiz input) string_at.
Proof.
  intros st x st1 H.
  destruct (reverseString_inv _ _ _ _ _ H) as (k & s & -> & Hk).
  rewrite (reverseString_run st thiz k s Hk) in H.
  destruct (decode (rev (encode s))) as [t|] eqn:Ht; [|discriminate H].
  apply (inj Some) in H. apply new_string_extends in H. destruct H as [Hext Hx].
  rewrite (reverseString_run st1 thiz k s (Hext _ _ Hk)), Ht. simpl.
  destruct (new_string st1 t) as [y st2] eqn:E.
  apply new_string_extends in E. destruct E as [Hext2 Hy].
  exists y, st2. split; [reflexivity|]. rewrite Hx, Hy.
  split; [eauto|]. split; [|reflexivity].
  apply (string_at_extends st1 st2 x t Hext2 Hx).
Qed.

Lemma swapAttributes_repeatable thiz person :
  repeatable (swapAttributes thiz person) person_at.
Proof.
  intros st x st1 H.
  destruct (swapAttributes_inv _ _ _ _ _ H) as (p & nk & n & a & -> & Hp & Hn).
  pose proof (returned_person_swapped st n a) as Hret.
  rewrite (swapAttributes_run st thiz p nk n a Hp Hn) in H.
  destruct (swapped_spec st n a) as (r1 & r2 & st' & E & _ & _ & _ & _ & _ & Hext & _).
  rewrite E in H, Hret. injection H as <- <-.
  change (returned_person (Some (Some r2, st'))) with (person_at st' (Some r2)) in Hret.
  pose proof (returned_person_swapped st' n a) as Hret'.
  rewrite (swapAttributes_run st' thiz p nk n a (Hext _ _ Hp) (Hext _ _ Hn)).
  destruct (swapped_spec st' n a) as (r1' & r2' & st'' & E' & _ & _ & _ & _ & _ & Hext' & _).
  rewrite E' in Hret' |- *.
  change (returned_person (Some (Some r2', st''))) with (person_at st'' (Some r2')) in Hret'.
  exists (Some r2'), st''. split; [reflexivity|]. rewrite Hret, Hret'.
  split; [eauto|]. split; [|reflexivity].
  apply (person_at_extends st' st'' _ _ Hext' Hret).
Qed.

End NativeLibFacts.

(** * The claims *)

Import Jint Jni Cxx NativeLib Spec.
Import JintFacts JniFacts ArraySumFacts CxxFacts DecimalNumeral StringFacts NativeLibFacts.

(** ** C1: the contract of [swapAttributes] *)

(** C1, as stated, fails: for the record [{name: "é", age: 30}] the call
    returns [{name: "30", age: 2}], and the name has length 1. *)
Lemma swapAttributes_length_counterexample :
  let st := vm_of [JavaString [233]; PersonObject (Some 0%nat) 30] true in
  person_at st (Some 1%nat) = Some {| pname := [233]; page := 30 |} ∧
  returned_person (swapAttributes None (Some 1%nat) st)
  = Some {| pname := chars "30"; page := 2 |} ∧
  ¬ ∃ r, returned_person (swapAttributes None (Some 1%nat) st) = Some r ∧
         page r = Z.of_nat (length [233]).
Proof.
  split; [reflexivity|]. split; [reflexivity|].
  intros (r & Hr & Hlen).
  change (returned_person
            (swapAttributes None (Some 1%nat)
               (vm_of [JavaString [233]; PersonObject (Some 0%nat) 30] true)))
    with (Some {| pname := chars "30"; page := 2 |}) in Hr.
  injection Hr as <-. discriminate Hlen.
Qed.

(** C1, amended. For every input record [p] whose name takes at most
    2^31-1 bytes in modified UTF-8, [swapAttributes(p)] returns a record
    whose name is the decimal string representation of [p.age] and whose
    age is the number of bytes of the modified UTF-8 encoding of [p.name];
    that number is the length of [p.name] when every character of the name
    is in U+0001..U+007F. *)
Theorem swapAttributes_contract
    (st : jvm) (thiz : jobject) (p : nat) (n : list Z) (a : Z) :
  person_at st (Some p) = Some {| pname := n; page := a |} →
  Z.of_nat (length (encode n)) <= max_jint →
  ∃ s,
    returned_person (swapAttributes thiz (Some p) st)
    = Some {| pname := s; page := Z.of_nat (length (encode n)) |} ∧
    is_decimal_of s a ∧
    (Forall one_byte n → Z.of_nat (length (encode n)) = Z.of_nat (length n)).
Proof.
  intros H Hlen. exists (to_string a). rewrite (swapAttributes_returns st thiz p n a H).
  rewrite wrap_small by (unfold in_range, min_jint, max_jint in *; lia).
  repeat split.
  - apply to_string_decimal.
  - intros Hn. rewrite encode_one_byte by exact Hn. reflexivity.
Qed.

Lemma swapAttributes_contract_witness :
  returned_person
    (swapAttributes None (Some 1%nat)
       (vm_of [JavaString (chars "Alice"); PersonObject (Some 0%nat) 30] false))
  = Some {| pname := chars "30"; page := 5 |}.
Proof.
  destruct (swapAttributes_contract
              (vm_of [JavaString (chars "Alice"); PersonObject (Some 0%nat) 30] false)
              None 1 (chars "Alice") 30 eq_refl)
    as (s & Hrun & Hdec & _).
  - vm_compute. discriminate.
  - rewrite Hrun. vm_compute in Hrun. injection Hrun as <-. reflexivity.
Defined.

(** ** C2: [reverseString] reverses *)

(** C2, as stated, fails: the string "é" is one character, its encoding is
    the two bytes C3 A9, and the call hands the reversed bytes A9 C3 to
    [NewStringUTF], which are not the encoding C3 A9 of its reversal: the
    call does not return the reversal of "é". *)
Lemma reverseString_multibyte_counterexample :
  let st := vm_of [JavaString [233]] true in
  string_at st (Some 0%nat) = Some [233] ∧
  std_reverse (encode [233]) = [169; 195] ∧
  encode (rev [233]) = [195; 169] ∧
  returned_string (reverseString None (Some 0%nat) st) ≠ Some (rev [233]).
Proof.
  repeat split. discriminate.
Qed.

(** C2, amended. For every string [s], [reverseString(s)] is what
    [NewStringUTF] makes of the exact reversal of the modified UTF-8 bytes of
    [s], which the code's [std::reverse] computes: as many bytes, a
    permutation of them, and reversed twice they are the bytes of [s]
    again. When all characters of [s] are in U+0001..U+007F,
    [reverseString(s)] has the length of [s], is the exact reversal (hence a
    permutation) of [s], and [reverseString(reverseString(s)) = s]. *)
Theorem reverseString_reversal (st : jvm) (thiz : jobject) (k : nat) (s : list Z) :
  string_at st (Some k) = Some s →
  (reverseString thiz (Some k) st = NewStringUTF (c_str (rev (encode s))) st ∧
   reverseString thiz (Some k) st = new_string st <$> decode (rev (encode s)) ∧
   std_reverse (encode s) = rev (encode s) ∧
   length (rev (encode s)) = length (encode s) ∧
   rev (encode s) ≡ₚ encode s ∧
   rev (rev (encode s)) = encode s) ∧
  (Forall one_byte s →
   ∃ r st',
     reverseString thiz (Some k) st = Some (r, st') ∧
     string_at st' r = Some (rev s) ∧
     length (rev s) = length s ∧
     rev s ≡ₚ s ∧
     returned_string (reverseString thiz r st') = Some s).
Proof.
  intros H. apply string_at_inv in H. destruct H as (k' & [= <-] & Hk). split.
  - repeat split.
    + apply reverseString_hands_over, Hk.
    + apply reverseString_run, Hk.
    + apply std_reverse_rev.
    + apply length_rev.
    + symmetry. apply Permutation_rev.
    + apply rev_involutive.
  - intros Hs.
    assert (Hrev : Forall one_byte (rev s)) by apply List.Forall_rev, Hs.
    rewrite (reverseString_run st thiz k s Hk).
    rewrite encode_one_byte, decode_one_byte by assumption.
    destruct (new_string_spec st (rev s)) as (r & Hnew & Hfresh).
    simpl. rewrite Hnew. eexists _, _. split; [reflexivity|].
    assert (Hr : heap (set_heap (<[r := JavaString (rev s)]> (heap st)) st) !! r
                 = Some (JavaString (rev s))) by apply lookup_insert_eq.
    repeat split.
    + unfold string_at. simpl. rewrite lookup_insert_eq. reflexivity.
    + apply length_rev.
    + symmetry. apply Permutation_rev.
    + rewrite (reverseString_run _ thiz r (rev s) Hr).
      rewrite encode_one_byte, rev_involutive, decode_one_byte by assumption.
      unfold new_string, returned_string, string_at. simpl.
      rewrite lookup_insert_eq. reflexivity.
Qed.

Lemma reverseString_reversal_witness :
  returned_string
    (reverseString None (Some 0%nat) (vm_of [JavaString (chars "hello")] true))
  = Some (chars "olleh").
Proof.
  destruct (reverseString_reversal (vm_of [JavaString (chars "hello")] true)
              None 0 (chars "hello") eq_refl)
    as [_ Hascii].
  destruct Hascii as (r & st' & Hrun & Hstr & _).
  - apply (bool_decide_unpack _). vm_compute. exact I.
  - rewrite Hrun. exact Hstr.
Defined.

(** ** C3: [sum] and [difference] wrap around *)

(** C3. For all 32-bit integers [a] and [b], [sum(a,b)] is [a+b] modulo 2^32
    and [difference(a,b)] is [a-b] modulo 2^32: each call returns (there is
    no error path), the result is a 32-bit integer congruent to the exact
    one, and it is the exact one moved by 2^32 when that is out of range. *)
Theorem sum_difference_wrap (st : jvm) (thiz : jobject) (a b : Z) :
  in_range a → in_range b →
  ∃ s d,
    sum thiz a b st = Some (s, st) ∧
    difference thiz a b st = Some (d, st) ∧
    in_range s ∧ s mod modulus = (a + b) mod modulus ∧
    in_range d ∧ d mod modulus = (a - b) mod modulus ∧
    s = (if a + b <? min_jint then a + b + modulus
         else if max_jint <? a + b then a + b - modulus else a + b) ∧
    d = (if a - b <? min_jint then a - b + modulus
         else if max_jint <? a - b then a - b - modulus else a - b).
Proof.
  intros Ha Hb. exists (add a b), (sub a b).
  unfold in_range, min_jint, max_jint in Ha, Hb.
  repeat split; try apply wrap_in_range; try apply wrap_congruent;
    apply wrap_cases; unfold min_jint, max_jint; lia.
Qed.

Lemma sum_difference_wrap_witness :
  sum None 2147483647 1 (vm_of [] true) = Some (-2147483648, vm_of [] true) ∧
  difference None (-2147483648) 1 (vm_of [] true) = Some (2147483647, vm_of [] true).
Proof.
  destruct (sum_difference_wrap (vm_of [] true) None 2147483647 1)
    as (s & d & Hs & _ & _ & _ & _ & _ & Hs' & _);
    [unfold in_range, min_jint, max_jint; lia ..|].
  destruct (sum_difference_wrap (vm_of [] true) None (-2147483648) 1)
    as (s2 & d2 & _ & Hd & _ & _ & _ & _ & _ & Hd');
    [unfold in_range, min_jint, max_jint; lia ..|].
  rewrite Hs, Hd, Hs', Hd'. split; reflexivity.
Defined.

(** ** C4: [arraySum] is the sum *)

(** C4. For every finite integer sequence [S], [arraySum(S)] is the sum of
    all elements of [S] in 32-bit wraparound arithmetic from a zero
    accumulator, which is the exact sum brought back into the 32-bit range;
    and [arraySum] of the empty sequence is 0. *)
Theorem arraySum_total (st : jvm) (thiz : jobject) (k : nat) (S : list Z) :
  heap st !! k = Some (IntArray S) →
  returned_int (arraySum thiz (Some k) st) = Some (wrapping_total S) ∧
  wrapping_total S = wrap (total S) ∧
  (in_range (total S) → wrapping_total S = total S) ∧
  (S = [] → returned_int (arraySum thiz (Some k) st) = Some 0).
Proof.
  intros H. rewrite (arraySum_run st thiz k S H). repeat split.
  - apply wrapping_total_wrap.
  - intros Hr. rewrite wrapping_total_wrap. apply wrap_small, Hr.
  - intros ->. reflexivity.
Qed.

Lemma arraySum_total_witness :
  returned_int (arraySum None (Some 0%nat) (vm_of [IntArray [1; 2; 3; 4]] true))
  = Some 10 ∧
  returned_int
    (arraySum None (Some 1%nat)
       (vm_of [IntArray []; IntArray [2147483647; 2147483647; 5]] false))
  = Some 3 ∧
  returned_int (arraySum None (Some 0%nat) (vm_of [IntArray []] true)) = Some 0.
Proof.
  split; [|split].
  - apply (arraySum_total (vm_of [IntArray [1; 2; 3; 4]] true) None 0 [1; 2; 3; 4]).
    reflexivity.
  - apply (arraySum_total
             (vm_of [IntArray []; IntArray [2147483647; 2147483647; 5]] false)
             None 1 [2147483647; 2147483647; 5]).
    reflexivity.
  - apply (arraySum_total (vm_of [IntArray []] true) None 0 []); reflexivity.
Defined.

(** ** C5: [arraySum] leaves the array alone *)

(** C5. For every input sequence [S], [arraySum(S)] leaves the caller-owned
    sequence unchanged: after the call the array holds [S], the whole
    managed heap and the native buffers are as before, whether the VM lent
    a copy or the array's own storage; and the release the call ends with
    writes nothing back, whatever the native view holds at that point. *)
Theorem arraySum_frame (st : jvm) (thiz : jobject) (k : nat) (S : list Z) :
  heap st !! k = Some (IntArray S) →
  (∃ v st', arraySum thiz (Some k) st = Some (v, st') ∧
            heap st' !! k = Some (IntArray S) ∧
            heap st' = heap st ∧ native st' = native st) ∧
  (∀ b view, native st !! b = Some view →
     ∃ st', ReleaseIntArrayElements (Some k) (Copied b) JNI_ABORT st = Some (tt, st') ∧
            heap st' = heap st).
Proof.
  intros H. split.
  - exists (wrapping_total S), st. rewrite (arraySum_run st thiz k S H). auto.
  - intros b view Hb. eexists. split.
    + apply (release_abort_no_write_back st k b S view H Hb).
    + reflexivity.
Qed.

Lemma arraySum_frame_witness :
  (∃ v st', arraySum None (Some 0%nat) (vm_of [IntArray [1; 2; 3; 4]] true) = Some (v, st') ∧
            heap st' !! 0%nat = Some (IntArray [1; 2; 3; 4])) ∧
  (∃ v st', arraySum None (Some 0%nat) (vm_of [IntArray [1; 2; 3; 4]] false) = Some (v, st') ∧
            heap st' !! 0%nat = Some (IntArray [1; 2; 3; 4])).
Proof.
  split.
  - destruct (arraySum_frame (vm_of [IntArray [1; 2; 3; 4]] true) None 0 [1; 2; 3; 4] eq_refl)
      as [(v & st' & Hrun & Hk & _) _].
    exists v, st'. split; [exact Hrun | exact Hk].
  - destruct (arraySum_frame (vm_of [IntArray [1; 2; 3; 4]] false) None 0 [1; 2; 3; 4] eq_refl)
      as [(v & st' & Hrun & Hk & _) _].
    exists v, st'. split; [exact Hrun | exact Hk].
Defined.

(** ** C6: [swapAttributes] leaves its argument alone *)

(** C6. For every input record [p], [swapAttributes(p)] does not mutate
    [p]: after the call the input record has the name and the age it had,
    the input object is untouched, as is every object that existed before
    the call; and the returned record is a new object, distinct from the
    input, whose name is a new string. *)
Theorem swapAttributes_frame (st : jvm) (thiz : jobject) (p : nat) (n : list Z) (a : Z) :
  person_at st (Some p) = Some {| pname := n; page := a |} →
  ∃ r st',
    swapAttributes thiz (Some p) st = Some (Some r, st') ∧
    person_at st' (Some p) = Some {| pname := n; page := a |} ∧
    heap st' !! p = heap st !! p ∧
    extends st st' ∧
    heap st !! r = None ∧ r ≠ p ∧
    ∃ rn a', heap st' !! r = Some (PersonObject (Some rn) a') ∧
             heap st !! rn = None.
Proof.
  intros H. pose proof H as Hrec.
  apply person_at_inv in H. destruct H as (nk & Hp & Hn).
  rewrite (swapAttributes_run st thiz p nk n a Hp Hn).
  destruct (swapped_spec st n a)
    as (r1 & r2 & st' & -> & Hr1 & Hr2 & Hne & Hs1 & Hs2 & Hframe & _).
  exists r2, st'. split; [reflexivity|].
  split; [exact (person_at_extends st st' _ _ Hframe Hrec)|].
  split; [rewrite Hp; exact (Hframe _ _ Hp)|].
  split; [exact Hframe|].
  split; [exact Hr2|].
  split; [congruence|].
  eexists r1, _. split; [exact Hs2 | exact Hr1].
Qed.

Lemma swapAttributes_frame_witness :
  ∃ r st',
    swapAttributes None (Some 1%nat)
      (vm_of [JavaString (chars "Alice"); PersonObject (Some 0%nat) 30] true)
    = Some (Some r, st') ∧
    person_at st' (Some 1%nat) = Some {| pname := chars "Alice"; page := 30 |} ∧
    r ≠ 1%nat.
Proof.
  destruct (swapAttributes_frame
              (vm_of [JavaString (chars "Alice"); PersonObject (Some 0%nat) 30] true)
              None 1 (chars "Alice") 30 eq_refl)
    as (r & st' & Hrun & Hsame & _ & _ & _ & Hne & _).
  exists r, st'. split; [exact Hrun|]. split; [exact Hsame | exact Hne].
Defined.

(** ** C7: determinism *)

(** C7. Every operation is deterministic. Two calls in a row with the same
    arguments: when the first returns so does the second, and the caller
    reads the same value in both results. No hidden state: in two VMs,
    whatever else they hold, whichever object the method is called on and
    whether arrays are copied or pinned, calls on arguments that denote
    the same value return results that read the same. *)
Theorem operations_deterministic (thiz thiz' : jobject) :
  (∀ a b, repeatable (sum thiz a b) int_value) ∧
  (∀ a b, repeatable (difference thiz a b) int_value) ∧
  (∀ array, repeatable (arraySum thiz array) int_value) ∧
  (∀ input, repeatable (reverseString thiz input) string_at) ∧
  (∀ person, repeatable (swapAttributes thiz person) person_at) ∧
  (∀ st st' a b,
     returned_int (sum thiz a b st) = returned_int (sum thiz' a b st') ∧
     returned_int (difference thiz a b st) = returned_int (difference thiz' a b st')) ∧
  (∀ st st' k k' S,
     heap st !! k = Some (IntArray S) → heap st' !! k' = Some (IntArray S) →
     returned_int (arraySum thiz (Some k) st)
     = returned_int (arraySum thiz' (Some k') st')) ∧
  (∀ st st' k k' s,
     string_at st (Some k) = Some s → string_at st' (Some k') = Some s →
     returned_string (reverseString thiz (Some k) st)
     = returned_string (reverseString thiz' (Some k') st')) ∧
  (∀ st st' p p' n a,
     person_at st (Some p) = Some {| pname := n; page := a |} →
     person_at st' (Some p') = Some {| pname := n; page := a |} →
     returned_person (swapAttributes thiz (Some p) st)
     = returned_person (swapAttributes thiz' (Some p') st')).
Proof.
  repeat apply conj.
  - intros a b st x st1 [= <- <-]. exists (add a b), st. unfold int_value. eauto.
  - intros a b st x st1 [= <- <-]. exists (sub a b), st. unfold int_value. eauto.
  - intros array. apply arraySum_repeatable.
  - intros input. apply reverseString_repeatable.
  - intros person. apply swapAttributes_repeatable.
  - intros st st' a b. split; reflexivity.
  - intros st st' k k' S Hk Hk'.
    rewrite (arraySum_run st thiz k S Hk), (arraySum_run st' thiz' k' S Hk'). reflexivity.
  - intros st st' k k' s Hk Hk'.
    apply string_at_inv in Hk, Hk'.
    destruct Hk as (j & [= <-] & Hk). destruct Hk' as (j' & [= <-] & Hk').
    rewrite (reverseString_run st thiz k s Hk), (reverseString_run st' thiz' k' s Hk').
    rewrite !returned_string_new. reflexivity.
  - intros st st' p p' n a Hp Hp'.
    rewrite (swapAttributes_returns st thiz p n a Hp).
    rewrite (swapAttributes_returns st' thiz' p' n a Hp'). reflexivity.
Qed.

Lemma operations_deterministic_witness :
  returned_int (arraySum None (Some 0%nat) (vm_of [IntArray [1; 2; 3]] true))
  = returned_int
      (arraySum (Some 0%nat) (Some 1%nat)
         (vm_of [JavaString (chars "x"); IntArray [1; 2; 3]] false)) ∧
  returned_string
    (reverseString None (Some 0%nat) (vm_of [JavaString (chars "hello")] true))
  = returned_string
      (reverseString (Some 0%nat) (Some 1%nat)
         (vm_of [IntArray [7]; JavaString (chars "hello")] false)).
Proof.
  destruct (operations_deterministic None (Some 0%nat))
    as (_ & _ & _ & _ & _ & _ & Harr & Hstr & _).
  split.
  - apply (Harr _ _ 0%nat 1%nat [1; 2; 3]); reflexivity.
  - apply (Hstr _ _ 0%nat 1%nat (chars "hello")); reflexivity.
Defined.

(** ** C8: the returned age counts bytes *)

(** C8, as stated, fails: a name of 715827883 characters U+20AC takes
    2147483649 bytes, and the age returned for it is -2147483647. *)
Lemma swapAttributes_age_wraps_counterexample :
  let n := replicate (Z.to_nat 715827883) 8364 in
  let st := vm_of [JavaString n; PersonObject (Some 0%nat) 30] true in
  person_at st (Some 1%nat) = Some {| pname := n; page := 30 |} ∧
  Z.of_nat (length (encode n)) = 2147483649 ∧
  returned_person (swapAttributes None (Some 1%nat) st)
  = Some {| pname := chars "30"; page := -2147483647 |} ∧
  ¬ ∃ r, returned_person (swapAttributes None (Some 1%nat) st) = Some r ∧
         page r = Z.of_nat (length (encode n)).
Proof.
  intros n st.
  assert (Hp : person_at st (Some 1%nat) = Some {| pname := n; page := 30 |}).
  { apply person_at_inv. exists 0%nat. split; reflexivity. }
  assert (Hlen : Z.of_nat (length (encode n)) = 2147483649).
  { unfold n. rewrite encode_replicate_length.
    change (length (encode_unit 8364)) with 3%nat.
    rewrite Nat2Z.inj_mul, Z2Nat.id by lia. reflexivity. }
  pose proof (swapAttributes_returns st None 1 n 30 Hp) as Hrun.
  rewrite Hlen in Hrun.
  change (wrap 2147483649) with (-2147483647) in Hrun.
  change (to_string 30) with (chars "30") in Hrun.
  split; [exact Hp|]. split; [exact Hlen|]. split; [exact Hrun|].
  intros (r & Hr & Hage). rewrite Hrun in Hr. injection Hr as <-.
  rewrite Hlen in Hage. discriminate Hage.
Qed.

(** C8, amended. For every input record [p], the age of the record
    [swapAttributes] returns is the number of bytes of the modified UTF-8
    encoding of [p.name] converted to a 32-bit [int]. For a name of at most
    2^31-1 bytes it is that number of bytes itself, not the number of
    characters: it is never below that number, and above it as soon as the
    name has a character outside U+0001..U+007F. *)
Theorem swapAttributes_age_counts_bytes
    (st : jvm) (thiz : jobject) (p : nat) (n : list Z) (a : Z) :
  person_at st (Some p) = Some {| pname := n; page := a |} →
  ∃ r,
    returned_person (swapAttributes thiz (Some p) st) = Some r ∧
    page r = wrap (Z.of_nat (length (encode n))) ∧
    (Z.of_nat (length (encode n)) <= max_jint →
     page r = Z.of_nat (length (encode n)) ∧
     Z.of_nat (length n) <= page r ∧
     (Exists (λ c, ¬ one_byte c) n → Z.of_nat (length n) < page r)).
Proof.
  intros H. eexists. rewrite (swapAttributes_returns st thiz p n a H).
  split; [reflexivity|]. simpl. split; [reflexivity|]. intros Hlen.
  rewrite wrap_small by (unfold in_range, min_jint, max_jint in *; lia).
  repeat split.
  - pose proof (encode_length n). lia.
  - intros Hex. pose proof (encode_length_multi n Hex). lia.
Qed.

Lemma swapAttributes_age_counts_bytes_witness :
  ∃ r,
    returned_person
      (swapAttributes None (Some 1%nat)
         (vm_of [JavaString [233; 8364]; PersonObject (Some 0%nat) 7] true)) = Some r ∧
    page r = 5 ∧ Z.of_nat (length [233; 8364]) < page r.
Proof.
  destruct (swapAttributes_age_counts_bytes
              (vm_of [JavaString [233; 8364]; PersonObject (Some 0%nat) 7] true)
              None 1 [233; 8364] 7 eq_refl)
    as (r & Hrun & _ & Hsmall).
  destruct Hsmall as (Hage & _ & Hlt).
  - vm_compute. discriminate.
  - exists r. split; [exact Hrun|]. split; [exact Hage|].
    apply Hlt. apply Exists_cons_hd. unfold one_byte. lia.
Defined.

(** ** C9: [difference] undoes [sum] *)

(** C9. For all 32-bit integers [a] and [b],
    [difference(sum(a,b), b) = a] and [sum(difference(a,b), b) = a]. *)
Theorem difference_sum_inverse (st : jvm) (thiz : jobject) (a b : Z) :
  in_range a → in_range b →
  (s ← sum thiz a b; difference thiz s b) st = Some (a, st) ∧
  (d ← difference thiz a b; sum thiz d b) st = Some (a, st).
Proof.
  intros Ha _. split.
  - change ((s ← sum thiz a b; difference thiz s b) st) with (Some (sub (add a b) b, st)).
    unfold sub, add. rewrite wrap_sub_l.
    replace (a + b - b) with a by lia. rewrite wrap_small by exact Ha. reflexivity.
  - change ((d ← difference thiz a b; sum thiz d b) st) with (Some (add (sub a b) b, st)).
    unfold sub, add. rewrite wrap_add_l.
    replace (a - b + b) with a by lia. rewrite wrap_small by exact Ha. reflexivity.
Qed.

Lemma difference_sum_inverse_witness :
  (s ← sum None 2147483647 2147483647; difference None s 2147483647) (vm_of [] false)
  = Some (2147483647, vm_of [] false) ∧
  (d ← difference None 2147483647 (-1); sum None d (-1)) (vm_of [] false)
  = Some (2147483647, vm_of [] false).
Proof.
  split.
  - apply (difference_sum_inverse (vm_of [] false) None 2147483647 2147483647);
      unfold in_range, min_jint, max_jint; lia.
  - apply (difference_sum_inverse (vm_of [] false) None 2147483647 (-1));
      unfold in_range, min_jint, max_jint; lia.
Defined.

(** ** C10: [arraySum] of a concatenation *)

(** C10. For all finite integer sequences [S] and [T],
    [arraySum(S ++ T) = sum(arraySum(S), arraySum(T))]. *)
Theorem arraySum_app (st : jvm) (thiz : jobject) (kS kT kST : nat) (S T : list Z) :
  heap st !! kS = Some (IntArray S) →
  heap st !! kT = Some (IntArray T) →
  heap st !! kST = Some (IntArray (S ++ T)) →
  arraySum thiz (Some kST) st
  = (x ← arraySum thiz (Some kS); y ← arraySum thiz (Some kT); sum thiz x y) st.
Proof.
  intros HS HT HST.
  rewrite (run_bind_some _ _ _ _ _ (arraySum_run st thiz kS S HS)).
  rewrite (run_bind_some _ _ _ _ _ (arraySum_run st thiz kT T HT)).
  rewrite (arraySum_run st thiz kST _ HST).
  change (sum thiz (wrapping_total S) (wrapping_total T) st)
    with (Some (add (wrapping_total S) (wrapping_total T), st)).
  f_equal. f_equal. rewrite !wrapping_total_wrap, total_app.
  unfold add. rewrite wrap_add_l, wrap_add_r. reflexivity.
Qed.

Lemma arraySum_app_witness :
  arraySum None (Some 2%nat)
    (vm_of [IntArray [2147483647; 1]; IntArray [-7]; IntArray [2147483647; 1; -7]] true)
  = Some (2147483641,
          vm_of [IntArray [2147483647; 1]; IntArray [-7]; IntArray [2147483647; 1; -7]] true).
Proof.
  rewrite (arraySum_app
             (vm_of [IntArray [2147483647; 1]; IntArray [-7]; IntArray [2147483647; 1; -7]] true)
             None 0 1 2 [2147483647; 1] [-7]); reflexivity.
Defined.

(** * Further properties of the entry points *)

(** ** [sum] and [difference] as 32-bit arithmetic *)

(** X1. On 32-bit integers [sum] is commutative and associative, overflow
    or not, 0 is neutral for it, and [difference(0, a)] is the opposite of
    [a] for it. *)
Theorem sum_abelian_group (st : jvm) (thiz : jobject) (a b c : Z) :
  in_range a → in_range b → in_range c →
  sum thiz a b st = sum thiz b a st ∧
  (x ← sum thiz a b; sum thiz x c) st = (y ← sum thiz b c; sum thiz a y) st ∧
  sum thiz a 0 st = Some (a, st) ∧
  (n ← difference thiz 0 a; sum thiz a n) st = Some (0, st).
Proof.
  intros Ha _ _. repeat split.
  - change (Some (add a b, st) = Some (add b a, st)).
    unfold add. rewrite (Z.add_comm a b). reflexivity.
  - change (Some (add (add a b) c, st) = Some (add a (add b c), st)).
    unfold add. rewrite wrap_add_l, wrap_add_r, Z.add_assoc. reflexivity.
  - change (Some (add a 0, st) = Some (a, st)).
    unfold add. rewrite Z.add_0_r, wrap_small by exact Ha. reflexivity.
  - change (Some (add a (sub 0 a), st) = Some (0, st)).
    unfold add, sub. rewrite wrap_add_r.
    replace (a + (0 - a)) with 0 by lia. reflexivity.
Qed.

Lemma sum_abelian_group_witness :
  (x ← sum None 2147483647 1; sum None x (-1)) (vm_of [] true)
  = (y ← sum None 1 (-1); sum None 2147483647 y) (vm_of [] true) ∧
  (n ← difference None 0 (-2147483648); sum None (-2147483648) n) (vm_of [] true)
  = Some (0, vm_of [] true).
Proof.
  destruct (sum_abelian_group (vm_of [] true) None 2147483647 1 (-1))
    as (_ & Hassoc & _); [unfold in_range, min_jint, max_jint; lia ..|].
  destruct (sum_abelian_group (vm_of [] true) None (-2147483648) 0 0)
    as (_ & _ & _ & Hopp); [unfold in_range, min_jint, max_jint; lia ..|].
  split; [exact Hassoc | exact Hopp].
Defined.

(** X2. For 32-bit [a] and [b], [sum(a,b)] is the exact sum exactly when
    the exact sum is a 32-bit integer; otherwise the operands have the same
    sign and the result has the other one. *)
Theorem sum_overflow_sign (st : jvm) (thiz : jobject) (a b : Z) :
  in_range a → in_range b →
  ∃ s, sum thiz a b st = Some (s, st) ∧
       (s = a + b ↔ in_range (a + b)) ∧
       (s ≠ a + b ↔ (0 <= a ∧ 0 <= b ∧ s < 0) ∨ (a < 0 ∧ b < 0 ∧ 0 <= s)).
Proof.
  intros Ha Hb. exists (add a b). split; [reflexivity|].
  unfold add. unfold in_range, min_jint, max_jint in *.
  rewrite wrap_cases by (unfold min_jint, max_jint; lia).
  unfold min_jint, max_jint, modulus.
  destruct (Z.ltb_spec (a + b) (-2147483648));
    [|destruct (Z.ltb_spec 2147483647 (a + b))]; lia.
Qed.

Lemma sum_overflow_sign_witness :
  ∃ s, sum None 2147483647 2147483647 (vm_of [] true) = Some (s, vm_of [] true) ∧ s < 0.
Proof.
  destruct (sum_overflow_sign (vm_of [] true) None 2147483647 2147483647)
    as (s & Hrun & _ & Hsign); [unfold in_range, min_jint, max_jint; lia ..|].
  exists s. split; [exact Hrun|].
  injection Hrun as <-. vm_compute. reflexivity.
Defined.

(** X3. For 32-bit [a] and [b], [difference(a,b)] is 0 exactly when
    [a = b]; it is [sum(a, difference(0,b))]; its sign compares [a] and
    [b] when the exact difference is a 32-bit integer, and otherwise [a]
    and [b] have different signs and the result has the sign of [b]. *)
Theorem difference_compares (st : jvm) (thiz : jobject) (a b : Z) :
  in_range a → in_range b →
  ∃ d, difference thiz a b st = Some (d, st) ∧
       (d = 0 ↔ a = b) ∧
       (n ← difference thiz 0 b; sum thiz a n) st = Some (d, st) ∧
       (in_range (a - b) → (d < 0 ↔ a < b)) ∧
       (¬ in_range (a - b) ↔ (0 <= a ∧ b < 0 ∧ d < 0) ∨ (a < 0 ∧ 0 <= b ∧ 0 <= d)).
Proof.
  intros Ha Hb. exists (sub a b). split; [reflexivity|].
  assert (Hsum : (n ← difference thiz 0 b; sum thiz a n) st = Some (sub a b, st)).
  { change (Some (add a (sub 0 b), st) = Some (sub a b, st)).
    unfold add, sub. rewrite wrap_add_r.
    replace (a + (0 - b)) with (a - b) by lia. reflexivity. }
  unfold sub in *. unfold in_range, min_jint, max_jint in *.
  rewrite wrap_cases in * by (unfold min_jint, max_jint; lia).
  unfold min_jint, max_jint, modulus in *.
  split; [|split; [exact Hsum|]];
    destruct (Z.ltb_spec (a - b) (-2147483648));
    try destruct (Z.ltb_spec 2147483647 (a - b)); lia.
Qed.

Lemma difference_compares_witness :
  ∃ d, difference None (-2147483648) 1 (vm_of [] true) = Some (d, vm_of [] true) ∧
       0 <= d.
Proof.
  destruct (difference_compares (vm_of [] true) None (-2147483648) 1)
    as (d & Hrun & _); [unfold in_range, min_jint, max_jint; lia ..|].
  exists d. split; [exact Hrun|].
  injection Hrun as <-. vm_compute. discriminate.
Defined.

(** ** The array sum and the order of the elements *)

Lemma total_permutation (S T : list Z) : S ≡ₚ T → total S = total T.
Proof.
  unfold total. induction 1 as [|x S T _ IH|x y S|S T U _ IH1 _ IH2]; simpl; lia.
Qed.

(** X4. [arraySum] does not depend on the order of the elements: two arrays
    that are permutations of each other have the same sum, overflow or
    not. *)
Theorem arraySum_permutation
    (st st' : jvm) (thiz : jobject) (k k' : nat) (S T : list Z) :
  heap st !! k = Some (IntArray S) →
  heap st' !! k' = Some (IntArray T) →
  S ≡ₚ T →
  returned_int (arraySum thiz (Some k) st) = returned_int (arraySum thiz (Some k') st').
Proof.
  intros HS HT Hperm.
  rewrite (arraySum_run st thiz k S HS), (arraySum_run st' thiz k' T HT).
  simpl. rewrite !wrapping_total_wrap, (total_permutation S T Hperm). reflexivity.
Qed.

Lemma arraySum_permutation_witness :
  returned_int
    (arraySum None (Some 0%nat) (vm_of [IntArray [2147483647; 1; -5]] true))
  = returned_int
      (arraySum None (Some 0%nat) (vm_of [IntArray [-5; 2147483647; 1]] false)).
Proof.
  apply (arraySum_permutation _ _ None 0 0 [2147483647; 1; -5] [-5; 2147483647; 1]);
    [reflexivity | reflexivity |].
  change [2147483647; 1; -5] with ([2147483647; 1] ++ [-5]).
  change [-5; 2147483647; 1] with ([-5] ++ [2147483647; 1]).
  apply Permutation_app_comm.
Defined.

(** ** Arguments the entry points do not check *)

(** X5. [arraySum] checks nothing about its argument: the call returns
    exactly when the argument is a non-NULL reference to an [int] array;
    on NULL, or on any other object, it has no result. *)
Theorem arraySum_returns_iff (st : jvm) (thiz array : jobject) :
  is_Some (arraySum thiz array st) ↔
  ∃ k S, array = Some k ∧ heap st !! k = Some (IntArray S).
Proof.
  split.
  - intros [[v st'] H]. apply (arraySum_inv _ _ _ _ _ H).
  - intros (k & S & -> & Hk). rewrite (arraySum_run st thiz k S Hk). eauto.
Qed.

(** X6. [swapAttributes] checks nothing about its argument: the call
    returns exactly when the argument is a non-NULL reference to a [Person]
    whose name is a non-NULL string; on NULL, on another object, or on a
    [Person] with a NULL name it has no result. *)
Theorem swapAttributes_returns_iff (st : jvm) (thiz person : jobject) :
  is_Some (swapAttributes thiz person st) ↔
  ∃ p nk n a, person = Some p ∧
    heap st !! p = Some (PersonObject (Some nk) a) ∧
    heap st !! nk = Some (JavaString n).
Proof.
  split.
  - intros [[r st'] H]. apply (swapAttributes_inv _ _ _ _ _ H).
  - intros (p & nk & n & a & -> & Hp & Hn).
    rewrite (swapAttributes_run st thiz p nk n a Hp Hn). eauto.
Qed.

Lemma arraySum_returns_iff_witness :
  ¬ is_Some (arraySum None None (vm_of [IntArray [1]] true)) ∧
  ¬ is_Some (arraySum None (Some 0%nat) (vm_of [JavaString [65]] true)) ∧
  is_Some (arraySum None (Some 0%nat) (vm_of [IntArray [1]] true)).
Proof.
  split; [|split].
  - intros H. apply arraySum_returns_iff in H. destruct H as (k & S & Hk & _).
    discriminate Hk.
  - intros H. apply arraySum_returns_iff in H. destruct H as (k & S & [= <-] & Hk).
    discriminate Hk.
  - apply arraySum_returns_iff. exists 0%nat, [1]. split; reflexivity.
Defined.

Lemma swapAttributes_returns_iff_witness :
  ¬ is_Some (swapAttributes None None (vm_of [] true)) ∧
  ¬ is_Some (swapAttributes None (Some 0%nat) (vm_of [PersonObject None 30] true)) ∧
  is_Some (swapAttributes None (Some 1%nat)
             (vm_of [JavaString [65]; PersonObject (Some 0%nat) 30] true)).
Proof.
  split; [|split].
  - intros H. apply swapAttributes_returns_iff in H.
    destruct H as (p & nk & n & a & Hp & _). discriminate Hp.
  - intros H. apply swapAttributes_returns_iff in H.
    destruct H as (p & nk & n & a & [= <-] & Hp & _). discriminate Hp.
  - apply swapAttributes_returns_iff. exists 1%nat, 0%nat, [65], 30.
    repeat split; reflexivity.
Defined.

(** ** Strings [reverseString] cannot reverse *)

Lemma encode_app (s t : list Z) : encode (s ++ t) = encode s ++ encode t.
Proof.
  induction s as [|c s IH]; [reflexivity|].
  simpl app. rewrite !encode_cons, IH, app_assoc. reflexivity.
Qed.

(** The last byte of a character of several bytes is a continuation byte. *)
Lemma encode_unit_last (c : Z) :
  ¬ one_byte c → ∃ front, encode_unit c = front ++ [Z.lor 128 (Z.land c 63)].
Proof.
  unfold one_byte, encode_unit. intros Hc.
  destruct (Z.leb_spec 1 c); destruct (Z.leb_spec c 127); simpl; try lia;
    destruct (c <=? 2047);
    first [ by exists [Z.lor 192 (Z.shiftr c 6)]
          | by exists [Z.lor 224 (Z.shiftr c 12); Z.lor 128 (Z.land (Z.shiftr c 6) 63)] ].
Qed.

(** No string starts with a continuation byte. *)
Lemma continuation_undecodable (c : Z) (rest : list Z) :
  decode (Z.lor 128 (Z.land c 63) :: rest) = None.
Proof.
  assert (Hall : forallb (λ x, let b := Z.lor 128 x in
                    negb ((1 <=? b) && (b <=? 127)) && negb (Z.land b 224 =? 192)
                    && negb (Z.land b 240 =? 224)) (seqZ 0 64) = true)
    by (vm_compute; reflexivity).
  rewrite forallb_forall in Hall.
  specialize (Hall (Z.land c 63)).
  assert (Hin : In (Z.land c 63) (seqZ 0 64)).
  { apply list_elem_of_In, elem_of_seqZ.
    change 63 with (Z.ones 6). rewrite Z.land_ones by lia.
    pose proof (Z.mod_pos_bound c (2 ^ 6)). lia. }
  specialize (Hall Hin). cbv zeta in Hall.
  apply andb_prop in Hall as [Hall H3]. apply andb_prop in Hall as [H1 H2].
  apply negb_true_iff in H1, H2, H3.
  simpl. rewrite H1, H2, H3. reflexivity.
Qed.

Lemma decode_one_byte_app (l r : list Z) :
  Forall one_byte l → decode (l ++ r) = (l ++.) <$> decode r.
Proof.
  induction 1 as [|c l Hc _ IH]; simpl.
  - destruct (decode r); reflexivity.
  - unfold one_byte in Hc.
    destruct (Z.leb_spec 1 c); [|lia]. destruct (Z.leb_spec c 127); [|lia].
    simpl. rewrite IH. destruct (decode r); reflexivity.
Qed.

(** The last character of several bytes, and the one-byte characters
    after it. *)
Lemma last_multi_byte (s : list Z) :
  Exists (λ c, ¬ one_byte c) s →
  ∃ s1 c s2, s = s1 ++ c :: s2 ∧ ¬ one_byte c ∧ Forall one_byte s2.
Proof.
  induction s as [|x s IH]; intros Hex; [inversion Hex|].
  destruct (decide (Forall one_byte s)) as [Hall|Hnot].
  - exists [], x, s. split; [reflexivity|]. split; [|exact Hall].
    inversion Hex as [? ? Hx|? ? Hs]; subst; [exact Hx|].
    exfalso. apply Exists_exists in Hs. destruct Hs as (c & Hin & Hc).
    rewrite Forall_forall in Hall. exact (Hc (Hall c Hin)).
  - apply not_Forall_Exists in Hnot; [|apply _].
    destruct (IH Hnot) as (s1 & c & s2 & -> & Hc & Hs2).
    exists (x :: s1), c, s2. split; [reflexivity|]. split; assumption.
Qed.

(** Reversed, the bytes of a string with a character of several bytes are
    not modified UTF-8. *)
Lemma reversed_bytes_undecodable (s : list Z) :
  Exists (λ c, ¬ one_byte c) s → decode (rev (encode s)) = None.
Proof.
  intros Hex. destruct (last_multi_byte s Hex) as (s1 & c & s2 & -> & Hc & Hs2).
  destruct (encode_unit_last c Hc) as (front & Hfront).
  rewrite encode_app, encode_cons, Hfront, (encode_one_byte s2 Hs2).
  rewrite !rev_app_distr. simpl rev. rewrite <- !app_assoc.
  rewrite decode_one_byte_app by apply List.Forall_rev, Hs2.
  simpl app. rewrite continuation_undecodable. reflexivity.
Qed.

(** What the caller reads in the string [reverseString] returns. *)
Lemma reverseString_returns (st : jvm) (thiz : jobject) (k : nat) (s : list Z) :
  string_at st (Some k) = Some s →
  returned_string (reverseString thiz (Some k) st)
  = if decide (Forall one_byte s) then Some (rev s) else None.
Proof.
  intros H. apply string_at_inv in H. destruct H as (k' & [= <-] & Hk).
  rewrite (reverseString_run st thiz k s Hk), returned_string_new.
  destruct (decide (Forall one_byte s)) as [Hall|Hnot].
  - rewrite encode_one_byte by exact Hall.
    apply decode_one_byte, List.Forall_rev, Hall.
  - apply reversed_bytes_undecodable, not_Forall_Exists; [apply _ | exact Hnot].
Qed.

(** *** The reversed bytes are no encoding *)

(** Bit 6 is clear in a continuation byte and bit 7 in a one-byte
    character; both are set in the first byte of a longer character. *)
Lemma bit6_clear (b : Z) : 128 <= b <= 191 → Z.testbit b 6 = false.
Proof.
  intros Hb. rewrite Z.testbit_odd, Z.shiftr_div_pow2 by lia.
  replace (b / 2 ^ 6) with 2; [reflexivity|].
  apply Z.div_unique with (r := b - 128); lia.
Qed.

Lemma bit7_clear (b : Z) : 1 <= b <= 127 → Z.testbit b 7 = false.
Proof.
  intros Hb. rewrite Z.testbit_odd, Z.shiftr_div_pow2 by lia.
  replace (b / 2 ^ 7) with 0; [reflexivity|].
  symmetry. apply Z.div_small. lia.
Qed.

Lemma continuation_range (c : Z) : 128 <= Z.lor 128 (Z.land c 63) <= 191.
Proof.
  assert (Hall : forallb (λ x, (128 <=? Z.lor 128 x) && (Z.lor 128 x <=? 191))
                   (seqZ 0 64) = true) by (vm_compute; reflexivity).
  rewrite forallb_forall in Hall. specialize (Hall (Z.land c 63)).
  assert (Hin : In (Z.land c 63) (seqZ 0 64)).
  { apply list_elem_of_In, elem_of_seqZ.
    change 63 with (Z.ones 6). rewrite Z.land_ones by lia.
    pose proof (Z.mod_pos_bound c (2 ^ 6)). lia. }
  specialize (Hall Hin). apply andb_prop in Hall as [H1 H2]. lia.
Qed.

(** The first byte of an encoded character. *)
Lemma encode_unit_first (c : Z) :
  ∃ b rest, encode_unit c = b :: rest ∧
    ((one_byte c ∧ b = c ∧ rest = []) ∨
     (Z.testbit b 6 = true ∧ Z.testbit b 7 = true)).
Proof.
  destruct (decide (one_byte c)) as [Hc|Hc].
  - exists c, []. rewrite encode_unit_one_byte by exact Hc. auto.
  - unfold one_byte in Hc. unfold encode_unit.
    destruct (Z.leb_spec 1 c); destruct (Z.leb_spec c 127); cbn [andb]; try lia;
      destruct (c <=? 2047); eexists _, _; (split; [reflexivity|]); right;
      rewrite !Z.lor_spec; split; reflexivity.
Qed.

(** No encoded string has a continuation byte right after one-byte
    characters. *)
Lemma encode_no_stray_continuation (l : list Z) : ∀ (t : list Z) b rest,
  Forall one_byte l → 128 <= b <= 191 → encode t ≠ l ++ b :: rest.
Proof.
  induction l as [|x l IH]; intros t b rest Hl Hb Heq.
  - destruct t as [|c t]; [discriminate Heq|].
    rewrite encode_cons in Heq.
    destruct (encode_unit_first c) as (b0 & r0 & E & [(Hc & -> & _)|[H6 _]]);
      rewrite E in Heq; injection Heq as -> _.
    + unfold one_byte in Hc. lia.
    + rewrite bit6_clear in H6 by exact Hb. discriminate H6.
  - apply Forall_cons in Hl. destruct Hl as [Hx Hl].
    destruct t as [|c t]; [discriminate Heq|].
    rewrite encode_cons in Heq.
    destruct (encode_unit_first c) as (b0 & r0 & E & [(Hc & -> & ->)|[_ H7]]);
      rewrite E in Heq; injection Heq as -> Heq.
    + exact (IH t b rest Hl Hb Heq).
    + rewrite bit7_clear in H7 by exact Hx. discriminate H7.
Qed.

Lemma reversed_bytes_no_encoding (s : list Z) :
  Exists (λ c, ¬ one_byte c) s → ∀ t, encode t ≠ rev (encode s).
Proof.
  intros Hex t. destruct (last_multi_byte s Hex) as (s1 & c & s2 & -> & Hc & Hs2).
  destruct (encode_unit_last c Hc) as (front & Hfront).
  rewrite encode_app, encode_cons, Hfront, (encode_one_byte s2 Hs2).
  rewrite !rev_app_distr. simpl rev. rewrite <- !app_assoc. simpl app.
  apply encode_no_stray_continuation;
    [apply List.Forall_rev, Hs2 | apply continuation_range].
Qed.

(** X7. [reverseString] passes the reversed bytes of its argument to
    [NewStringUTF] unchecked. When all characters of the string are in
    U+0001..U+007F these bytes are the encoding of the reversed string; as
    soon as the string has any other character (U+0000 included) they are
    not the modified UTF-8 encoding of any string. *)
Theorem reverseString_hands_malformed
    (st : jvm) (thiz : jobject) (k : nat) (s : list Z) :
  string_at st (Some k) = Some s →
  reverseString thiz (Some k) st = NewStringUTF (c_str (rev (encode s))) st ∧
  std_reverse (encode s) = rev (encode s) ∧
  c_string (c_str (rev (encode s))) = rev (encode s) ∧
  (Forall one_byte s → rev (encode s) = encode (rev s)) ∧
  (Exists (λ c, ¬ one_byte c) s → ∀ t, encode t ≠ rev (encode s)).
Proof.
  intros H. apply string_at_inv in H. destruct H as (k' & [= <-] & Hk).
  repeat split.
  - apply reverseString_hands_over, Hk.
  - apply std_reverse_rev.
  - apply c_string_c_str, List.Forall_rev, encode_nonzero.
  - intros Hall.
    rewrite !encode_one_byte by (try apply List.Forall_rev; exact Hall). reflexivity.
  - apply reversed_bytes_no_encoding.
Qed.

Lemma reverseString_hands_malformed_witness :
  std_reverse (encode [104; 233]) = [169; 195; 104] ∧
  ∀ t, encode t ≠ [169; 195; 104].
Proof.
  destruct (reverseString_hands_malformed (vm_of [JavaString [104; 233]] true)
              None 0 [104; 233] eq_refl)
    as (_ & Hrev & _ & _ & Hbad).
  split; [reflexivity|].
  apply Hbad. apply Exists_cons_tl, Exists_cons_hd. unfold one_byte. lia.
Defined.

(** ** What [reverseString] leaves behind *)

(** X8. When [reverseString] returns, the buffer it borrowed for the
    characters is released (the native buffers are those of before the
    call), the managed heap has grown by exactly the returned string, which
    is a new object and not the argument, and the argument still holds the
    string it held. *)
Theorem reverseString_frame (st : jvm) (thiz : jobject) (k : nat) (s : list Z) :
  string_at st (Some k) = Some s →
  Forall one_byte s →
  ∃ r st',
    reverseString thiz (Some k) st = Some (Some r, st') ∧
    native st' = native st ∧
    heap st !! r = None ∧ r ≠ k ∧
    heap st' = <[r := JavaString (rev s)]> (heap st) ∧
    string_at st' (Some k) = Some s.
Proof.
  intros H Hall. pose proof H as Hs.
  apply string_at_inv in H. destruct H as (k' & [= <-] & Hk).
  rewrite (reverseString_run st thiz k s Hk).
  rewrite encode_one_byte, decode_one_byte by (try apply List.Forall_rev; exact Hall).
  destruct (new_string_spec st (rev s)) as (r & Hnew & Hfresh).
  simpl. rewrite Hnew. exists r. eexists. split; [reflexivity|].
  assert (Hne : r ≠ k) by congruence.
  repeat split; try assumption.
  unfold string_at. simpl. rewrite lookup_insert_ne, Hk by exact Hne. reflexivity.
Qed.

Lemma reverseString_frame_witness :
  ∃ r st',
    reverseString None (Some 0%nat) (vm_of [JavaString (chars "hello")] true)
    = Some (Some r, st') ∧
    native st' = ∅ ∧ r ≠ 0%nat ∧
    string_at st' (Some 0%nat) = Some (chars "hello").
Proof.
  destruct (reverseString_frame (vm_of [JavaString (chars "hello")] true)
              None 0 (chars "hello") eq_refl)
    as (r & st' & Hrun & Hnative & _ & Hne & _ & Hsame).
  - apply (bool_decide_unpack _). vm_compute. exact I.
  - exists r, st'. repeat split; assumption.
Defined.

(** X9. [reverseString] turns a concatenation around: what it returns for
    [s ++ t] is what it returns for [t] followed by what it returns for
    [s], and it fails on [s ++ t] exactly when it fails on [s] or on [t]. *)
Theorem reverseString_app
    (st : jvm) (thiz : jobject) (ks kt kst : nat) (s t : list Z) :
  string_at st (Some ks) = Some s →
  string_at st (Some kt) = Some t →
  string_at st (Some kst) = Some (s ++ t) →
  returned_string (reverseString thiz (Some kst) st)
  = (x ← returned_string (reverseString thiz (Some kt) st);
     y ← returned_string (reverseString thiz (Some ks) st);
     Some (x ++ y)).
Proof.
  intros Hs Ht Hst.
  rewrite (reverseString_returns st thiz ks s Hs).
  rewrite (reverseString_returns st thiz kt t Ht).
  rewrite (reverseString_returns st thiz kst (s ++ t) Hst).
  destruct (decide (Forall one_byte (s ++ t))) as [Hall|Hnot].
  - apply Forall_app in Hall. destruct Hall as [Hs1 Ht1].
    rewrite !decide_True by assumption. simpl. rewrite rev_app_distr. reflexivity.
  - destruct (decide (Forall one_byte t)) as [Ht1|]; [|reflexivity].
    destruct (decide (Forall one_byte s)) as [Hs1|]; [|reflexivity].
    exfalso. apply Hnot, Forall_app. split; assumption.
Qed.

Lemma reverseString_app_witness :
  returned_string
    (reverseString None (Some 2%nat)
       (vm_of [JavaString (chars "ab"); JavaString (chars "cde");
               JavaString (chars "abcde")] true))
  = Some (chars "edc" ++ chars "ba").
Proof.
  rewrite (reverseString_app _ None 0 1 2 (chars "ab") (chars "cde"));
    reflexivity.
Defined.

(** ** What [swapAttributes] leaves behind, and what it returns *)

(** X10. When [swapAttributes] returns, the buffer it borrowed for the name
    is released (the native buffers are those of before the call) and the
    managed heap has grown by exactly two objects, both new: the returned
    [Person] and the string that is its name. *)
Theorem swapAttributes_allocates
    (st : jvm) (thiz : jobject) (p : nat) (n : list Z) (a : Z) :
  person_at st (Some p) = Some {| pname := n; page := a |} →
  ∃ r rn nm ag st',
    swapAttributes thiz (Some p) st = Some (Some r, st') ∧
    native st' = native st ∧
    heap st !! rn = None ∧ heap st !! r = None ∧ rn ≠ r ∧
    heap st' = <[r := PersonObject (Some rn) ag]> (<[rn := JavaString nm]> (heap st)) ∧
    size (heap st') = (size (heap st) + 2)%nat.
Proof.
  intros H. apply person_at_inv in H. destruct H as (nk & Hp & Hn).
  rewrite (swapAttributes_run st thiz p nk n a Hp Hn).
  unfold swapped, new_string. simpl.
  set (r1 := fresh (dom (heap st))).
  set (h1 := <[r1 := JavaString (to_string a)]> (heap st)).
  set (r2 := fresh (dom h1)).
  assert (H1 : heap st !! r1 = None) by apply fresh_object.
  assert (H2 : h1 !! r2 = None) by apply not_elem_of_dom, is_fresh.
  assert (Hne : r1 ≠ r2).
  { intros Heq. rewrite <- Heq in H2. unfold h1 in H2.
    rewrite lookup_insert_eq in H2. discriminate. }
  exists r2, r1, (to_string a), (wrap (Z.of_nat (length (encode n)))). eexists.
  split; [reflexivity|]. simpl.
  split; [reflexivity|]. split; [exact H1|].
  split; [unfold h1 in H2; rewrite lookup_insert_ne in H2 by exact Hne; exact H2|].
  split; [exact Hne|]. split; [reflexivity|].
  rewrite map_size_insert_None by exact H2.
  unfold h1. rewrite map_size_insert_None by exact H1. lia.
Qed.

Lemma swapAttributes_allocates_witness :
  ∃ r st',
    swapAttributes None (Some 1%nat)
      (vm_of [JavaString (chars "Alice"); PersonObject (Some 0%nat) 30] true)
    = Some (Some r, st') ∧
    native st' = ∅ ∧ size (heap st') = 4%nat.
Proof.
  destruct (swapAttributes_allocates
              (vm_of [JavaString (chars "Alice"); PersonObject (Some 0%nat) 30] true)
              None 1 (chars "Alice") 30 eq_refl)
    as (r & rn & nm & ag & st' & Hrun & Hnative & _ & _ & _ & _ & Hsize).
  exists r, st'. split; [exact Hrun|]. split; [exact Hnative|].
  rewrite Hsize. reflexivity.
Defined.

(** *** The numeral [std::to_string] writes *)

Lemma digits_length_ge (n : nat) : ∀ v acc, (length acc ≤ length (digits n v acc))%nat.
Proof.
  induction n as [|n IH]; intros v acc; [reflexivity|].
  simpl. destruct (v / 10 =? 0); [simpl; lia|].
  etransitivity; [|apply IH]. simpl. lia.
Qed.

Lemma digits_length_le (n : nat) : ∀ v (k : nat) acc,
  0 <= v < 10 ^ Z.of_nat (S k) →
  (length (digits n v acc) ≤ S k + length acc)%nat.
Proof.
  induction n as [|n IH]; intros v k acc Hv; [simpl; lia|].
  simpl. destruct (Z.eqb_spec (v / 10) 0) as [Hq|Hq]; [simpl; lia|].
  rewrite Nat2Z.inj_succ, Z.pow_succ_r in Hv by lia.
  assert (Hq0 : 0 <= v / 10) by (apply Z.div_pos; lia).
  assert (Hq1 : v / 10 < 10 ^ Z.of_nat k) by (apply Z.div_lt_upper_bound; lia).
  destruct k as [|k]; [simpl in Hq1; lia|].
  specialize (IH (v / 10) k ((48 + v mod 10) :: acc) (conj Hq0 Hq1)).
  simpl in IH. lia.
Qed.

Lemma digits_are_digits (n : nat) : ∀ v acc,
  Forall (λ c, 48 <= c <= 57) acc → Forall (λ c, 48 <= c <= 57) (digits n v acc).
Proof.
  induction n as [|n IH]; intros v acc Hacc; [exact Hacc|].
  simpl. assert (Hm := Z.mod_pos_bound v 10 ltac:(lia)).
  assert (Forall (λ c, 48 <= c <= 57) ((48 + v mod 10) :: acc))
    by (constructor; [lia | exact Hacc]).
  destruct (v / 10 =? 0); [assumption | apply IH; assumption].
Qed.

(** The numeral of a 32-bit integer has between 1 and 11 characters. *)
Lemma to_string_length (a : Z) : in_range a → (1 ≤ length (to_string a) ≤ 11)%nat.
Proof.
  unfold in_range, min_jint, max_jint, to_string. intros Ha.
  destruct (Z.ltb_spec a 0).
  - pose proof (digits_length_le (S (Z.to_nat (Z.log2 (- a)))) (- a) 9 []) as Hle.
    simpl length in *. split; [lia|].
    assert (Hb : 0 <= - a < 10 ^ Z.of_nat 10)
      by (change (10 ^ Z.of_nat 10) with 10000000000; lia).
    specialize (Hle Hb). lia.
  - pose proof (digits_length_le (S (Z.to_nat (Z.log2 a))) a 9 []) as Hle.
    pose proof (digits_length_ge (Z.to_nat (Z.log2 a)) (a / 10) [48 + a mod 10]) as Hge.
    assert (Hb : 0 <= a < 10 ^ Z.of_nat 10)
      by (change (10 ^ Z.of_nat 10) with 10000000000; lia).
    specialize (Hle Hb). simpl length in *. split; [|lia].
    simpl digits. destruct (a / 10 =? 0); [simpl; lia | exact Hge].
Qed.

(** It is made of digits after a minus sign that is there for the negative
    integers only. *)
Lemma to_string_shape (a : Z) :
  ∃ c rest, to_string a = c :: rest ∧
            (c = 45 ↔ a < 0) ∧ (c = 45 ∨ 48 <= c <= 57) ∧
            Forall (λ d, 48 <= d <= 57) rest.
Proof.
  unfold to_string. destruct (Z.ltb_spec a 0) as [Hneg|Hpos].
  - eexists _, _. split; [reflexivity|]. split; [tauto|]. split; [left; reflexivity|].
    apply digits_are_digits. constructor.
  - pose proof (digits_are_digits (S (Z.to_nat (Z.log2 a))) a [] (Forall_nil_2 _)) as Hd.
    pose proof (digits_length_ge (Z.to_nat (Z.log2 a)) (a / 10) [48 + a mod 10]) as Hge.
    destruct (digits (S (Z.to_nat (Z.log2 a))) a []) as [|c rest] eqn:E.
    + exfalso. simpl in E. destruct (a / 10 =? 0); [discriminate E|].
      rewrite E in Hge. simpl in Hge. lia.
    + apply Forall_cons in Hd. destruct Hd as [Hc Hrest].
      exists c, rest. split; [reflexivity|]. split; [lia|]. split; [right; exact Hc | exact Hrest].
Qed.

(** X11. For a record with a 32-bit age (and a name of at most 2^31-1
    bytes), the name [swapAttributes] returns has between 1 and 11
    characters: digits, after a minus sign that is there exactly when the
    age is negative. The age it returns is never negative, and is 0 exactly
    when the input name is empty. *)
Theorem swapAttributes_shape
    (st : jvm) (thiz : jobject) (p : nat) (n : list Z) (a : Z) :
  person_at st (Some p) = Some {| pname := n; page := a |} →
  Z.of_nat (length (encode n)) <= max_jint →
  in_range a →
  ∃ c rest ag,
    returned_person (swapAttributes thiz (Some p) st)
    = Some {| pname := c :: rest; page := ag |} ∧
    (length (c :: rest) ≤ 11)%nat ∧
    (c = 45 ↔ a < 0) ∧ (c = 45 ∨ 48 <= c <= 57) ∧
    Forall (λ d, 48 <= d <= 57) rest ∧
    0 <= ag ∧ (ag = 0 ↔ n = []).
Proof.
  intros H Hlen Ha. rewrite (swapAttributes_returns st thiz p n a H).
  destruct (to_string_shape a) as (c & rest & E & Hsign & Hc & Hrest).
  pose proof (to_string_length a Ha) as Hl. rewrite E in Hl |- *.
  rewrite wrap_small by (unfold in_range, min_jint, max_jint in *; lia).
  exists c, rest. eexists. split; [reflexivity|].
  repeat split; try tauto; try lia.
  - intros H0. pose proof (encode_length n). destruct n; [reflexivity | simpl in *; lia].
  - intros ->. reflexivity.
Qed.

Lemma swapAttributes_shape_witness :
  returned_person
    (swapAttributes None (Some 1%nat)
       (vm_of [JavaString []; PersonObject (Some 0%nat) (-2147483648)] true))
  = Some {| pname := chars "-2147483648"; page := 0 |}.
Proof.
  destruct (swapAttributes_shape
              (vm_of [JavaString []; PersonObject (Some 0%nat) (-2147483648)] true)
              None 1 [] (-2147483648) eq_refl)
    as (c & rest & ag & Hrun & _).
  - vm_compute. discriminate.
  - unfold in_range, min_jint, max_jint. lia.
  - rewrite Hrun. vm_compute in Hrun. injection Hrun as <- <- <-. reflexivity.
Defined.

(** X12. [swapAttributes] is not its own inverse. Applied to the record it
    returned for [{name: n, age: a}] (a 32-bit age, a name of at most
    2^31-1 bytes), it returns the number of bytes of [n], in decimal, as
    the name, and the number of characters of the decimal representation
    of [a], between 1 and 11, as the age. *)
Theorem swapAttributes_twice
    (st : jvm) (thiz : jobject) (p : nat) (n : list Z) (a : Z) :
  person_at st (Some p) = Some {| pname := n; page := a |} →
  Z.of_nat (length (encode n)) <= max_jint →
  in_range a →
  ∃ s1 s2,
    returned_person (swapAttributes thiz (Some p) st)
    = Some {| pname := s1; page := Z.of_nat (length (encode n)) |} ∧
    returned_person ((x ← swapAttributes thiz (Some p); swapAttributes thiz x) st)
    = Some {| pname := s2; page := Z.of_nat (length s1) |} ∧
    is_decimal_of s1 a ∧
    is_decimal_of s2 (Z.of_nat (length (encode n))) ∧
    (1 ≤ length s1 ≤ 11)%nat.
Proof.
  intros H Hlen Ha.
  pose proof (swapAttributes_returns st thiz p n a H) as Hfirst.
  pose proof (to_string_length a Ha) as Hl.
  rewrite wrap_small in Hfirst by (unfold in_range, min_jint, max_jint in *; lia).
  exists (to_string a), (to_string (Z.of_nat (length (encode n)))).
  split; [exact Hfirst|]. split; [|auto using to_string_decimal].
  destruct (swapAttributes thiz (Some p) st) as [[x st1]|] eqn:Hrun; [|discriminate Hfirst].
  rewrite (run_bind_some _ _ _ _ _ Hrun).
  change (person_at st1 x = Some {| pname := to_string a;
                                    page := Z.of_nat (length (encode n)) |}) in Hfirst.
  destruct x as [r|]; [|discriminate Hfirst].
  rewrite (swapAttributes_returns st1 thiz r _ _ Hfirst).
  rewrite (encode_one_byte (to_string a)) by apply to_string_ascii.
  rewrite wrap_small by (unfold in_range, min_jint, max_jint in *; lia).
  reflexivity.
Qed.

Lemma swapAttributes_twice_witness :
  returned_person
    ((x ← swapAttributes None (Some 1%nat); swapAttributes None x)
       (vm_of [JavaString (chars "Alice"); PersonObject (Some 0%nat) 30] true))
  = Some {| pname := chars "5"; page := 2 |}.
Proof.
  destruct (swapAttributes_twice
              (vm_of [JavaString (chars "Alice"); PersonObject (Some 0%nat) 30] true)
              None 1 (chars "Alice") 30 eq_refl)
    as (s1 & s2 & H1 & H2 & _).
  - vm_compute. discriminate.
  - unfold in_range, min_jint, max_jint. lia.
  - rewrite H2. vm_compute in H1, H2. injection H2 as <-. injection H1 as <-.
    reflexivity.
Defined.
